(** * Volume bindings of Eru-core ([types/volume.go])

    A shallow embedding of the volume-binding algebra: parsing and
    validation ([NewVolumeBinding], [Validate]), emission ([ToString]),
    and the collection operations ([ToStringSlice], [IsEqual],
    [ApplyPlan], [TotalSize], [MergeVolumeBindings]).

    Go strings are byte sequences and are modelled as [string] (a list
    of 8-bit [ascii]); [int64] is modelled as [Z] with the wrap-around
    of the machine addition written out ([wrap64]); the Go map used by
    [MergeVolumeBindings] is a [gmap]; slices of pointers live in an
    explicit store ([Store]). *)

From Stdlib Require Import ZArith Ascii String List Lia.
From stdpp Require Import base option list gmap strings sorting pretty.

(** ** The parts of the Go standard library the code calls *)

(** Package [strings]. The code only passes one-byte patterns to
    [Contains] and [ReplaceAll] and the one-byte separator [":"] to
    [Split]; the pattern is therefore an [ascii]. *)
Module GoStrings.

(** [strings.Split(s, sep)] for a one-byte [sep]: the fields between
    the separators, always at least one field. *)
Fixpoint Split (s : string) (sep : ascii) : list string :=
  match s with
  | EmptyString => [EmptyString]
  | String c r =>
      if Ascii.eqb c sep then EmptyString :: Split r sep
      else match Split r sep with
           | h :: t => String c h :: t
           | [] => [String c EmptyString]
           end
  end.

(** [strings.Join(parts, sep)] with the empty separator. *)
Fixpoint Join (parts : list string) : string :=
  match parts with
  | [] => EmptyString
  | p :: ps => p +:+ Join ps
  end.

(** [strings.Contains(s, pat)] for a one-byte [pat]. *)
Fixpoint Contains (s : string) (pat : ascii) : bool :=
  match s with
  | EmptyString => false
  | String c r => Ascii.eqb c pat || Contains r pat
  end.

(** [strings.ReplaceAll(s, old, new)] for a one-byte [old]. *)
Fixpoint ReplaceAll (s : string) (old : ascii) (new : string) : string :=
  match s with
  | EmptyString => EmptyString
  | String c r =>
      if Ascii.eqb c old then new +:+ ReplaceAll r old new
      else String c (ReplaceAll r old new)
  end.

(** [strings.HasSuffix(s, suffix)]. *)
Definition HasSuffix (s suffix : string) : bool :=
  let n := String.length s in
  let m := String.length suffix in
  (m <=? n)%nat && String.eqb (String.substring (n - m) m s) suffix.

(** The first [n] bytes of [s] ([s[:n]]) and the rest ([s[n:]]). *)
Fixpoint take (n : nat) (s : string) : string :=
  match n, s with
  | S n', String c r => String c (take n' r)
  | _, _ => EmptyString
  end.

Fixpoint drop (n : nat) (s : string) : string :=
  match n, s with
  | S n', String _ r => drop n' r
  | _, _ => s
  end.

End GoStrings.

(** Package [unicode/utf8]: the width of the first UTF-8 sequence of a
    string, as [utf8.DecodeRuneInString] computes it (an invalid or
    truncated sequence has width 1). *)
Module GoUtf8.

Definition byte_val (c : ascii) : N := N_of_ascii c.

(** The table [first] together with [acceptRanges]: for a leading
    byte of a multi-byte sequence, the size of the sequence and the
    range accepted for the second byte; [None] for an ASCII byte and
    for a byte that cannot start a sequence. *)
Definition first (b : N) : option (nat * N * N) :=
  if (b <? 0xC2)%N then None
  else if (b <? 0xE0)%N then Some (2%nat, 0x80, 0xBF)%N
  else if (b =? 0xE0)%N then Some (3%nat, 0xA0, 0xBF)%N
  else if (b <? 0xED)%N then Some (3%nat, 0x80, 0xBF)%N
  else if (b =? 0xED)%N then Some (3%nat, 0x80, 0x9F)%N
  else if (b <? 0xF0)%N then Some (3%nat, 0x80, 0xBF)%N
  else if (b =? 0xF0)%N then Some (4%nat, 0x90, 0xBF)%N
  else if (b <? 0xF4)%N then Some (4%nat, 0x80, 0xBF)%N
  else if (b =? 0xF4)%N then Some (4%nat, 0x80, 0x8F)%N
  else None.

(** [locb <= b <= hicb]: a continuation byte. *)
Definition is_cont (c : ascii) : bool :=
  (0x80 <=? byte_val c)%N && (byte_val c <=? 0xBF)%N.

Definition DecodeRuneInString_size (s : string) : nat :=
  match s with
  | EmptyString => 0
  | String c0 r =>
      match first (byte_val c0) with
      | None => 1
      | Some (sz, lo, hi) =>
          if (String.length s <? sz)%nat then 1
          else match r with
               | EmptyString => 1
               | String c1 r1 =>
                   if (byte_val c1 <? lo)%N || (hi <? byte_val c1)%N then 1
                   else if (sz <=? 2)%nat then 2
                   else match r1 with
                        | EmptyString => 1
                        | String c2 r2 =>
                            if negb (is_cont c2) then 1
                            else if (sz <=? 3)%nat then 3
                            else match r2 with
                                 | EmptyString => 1
                                 | String c3 _ =>
                                     if negb (is_cont c3) then 1 else 4
                                 end
                        end
               end
      end
  end.

(** [strings.Split(s, sep)] with the empty separator: [s] cut after
    each UTF-8 sequence
    ([explode] of package [strings]: "invalid UTF-8 bytes are sliced
    individually"); the recursion is bounded by the number of bytes
    left. *)
Fixpoint explode_go (fuel : nat) (s : string) : list string :=
  match fuel with
  | O => []
  | S fuel' =>
      match s with
      | EmptyString => []
      | _ =>
          let n := DecodeRuneInString_size s in
          GoStrings.take n s :: explode_go fuel' (GoStrings.drop n s)
      end
  end.

Definition explode (s : string) : list string :=
  explode_go (String.length s) s.

End GoUtf8.

(** Package [sort]. [sort.Strings] orders by the byte-wise
    lexicographic order of Go's [<] on strings. *)
Module GoSort.

Definition Strings (l : list string) : list string :=
  merge_sort String.le l.

End GoSort.

(** ** [int64] *)

Definition int64_min : Z := (- 2 ^ 63)%Z.
Definition int64_max : Z := (2 ^ 63 - 1)%Z.

Definition in_int64 (z : Z) : Prop := (int64_min <= z <= int64_max)%Z.

(** The value an [int64] holds after an arithmetic result [z]. *)
Definition wrap64 (z : Z) : Z := ((z + 2 ^ 63) mod 2 ^ 64 - 2 ^ 63)%Z.

(** Package [strconv] and the [%d] verb of [fmt]. *)
Module GoStrconv.

Inductive NumError := ErrSyntax | ErrRange.

Definition digit (c : ascii) : option Z :=
  let n := Z.of_N (N_of_ascii c) in
  if (48 <=? n)%Z && (n <=? 57)%Z then Some (n - 48)%Z else None.

Definition maxUint64 : Z := (2 ^ 64 - 1)%Z.

(** The digit loop of [ParseUint(s, 10, 64)]: a byte that is not a
    decimal digit is a syntax error, a value above [maxUint64] a
    range error, whichever comes first from the left. *)
Fixpoint digits (acc : Z) (s : string) : NumError + Z :=
  match s with
  | EmptyString => inr acc
  | String c r =>
      match digit c with
      | None => inl ErrSyntax
      | Some d =>
          if (maxUint64 <? acc * 10 + d)%Z then inl ErrRange
          else digits (acc * 10 + d)%Z r
      end
  end.

(** [strconv.ParseInt(s, 10, 64)]: an optional sign, then at least
    one decimal digit; [ErrRange] when the value does not fit. *)
Definition ParseInt (s : string) : NumError + Z :=
  match s with
  | EmptyString => inl ErrSyntax
  | String c r =>
      let '(neg, body) :=
        if Ascii.eqb c "+" then (false, r)
        else if Ascii.eqb c "-" then (true, r)
        else (false, s) in
      match body with
      | EmptyString => inl ErrSyntax
      | _ =>
          match digits 0 body with
          | inl e => inl e
          | inr un =>
              let n := if neg : bool then (- un)%Z else un in
              if (int64_min <=? n)%Z && (n <=? int64_max)%Z
              then inr n else inl ErrRange
          end
      end
  end.

(** [fmt.Sprintf("%d", n)]: the decimal numeral of [n], with a
    leading [-] when negative. *)
Definition FormatInt (n : Z) : string := pretty n.

End GoStrconv.

(** ** [VolumeBinding] *)

Definition auto : string := "AUTO".

Record VolumeBinding := mkVolumeBinding {
  Source : string;
  Destination : string;
  Flags : string;
  SizeInBytes : Z;
  ReadIOPS : Z;
  WriteIOPS : Z;
  ReadBytes : Z;
  WriteBytes : Z
}.

#[global] Instance VolumeBinding_eq_dec : EqDecision VolumeBinding.
Proof. solve_decision. Defined.

(** The zero value [&VolumeBinding{}]. *)
Definition zeroVolumeBinding : VolumeBinding :=
  mkVolumeBinding EmptyString EmptyString EmptyString 0 0 0 0 0.

(** Every numeric field holds an [int64]. *)
Definition wf_binding (vb : VolumeBinding) : Prop :=
  in_int64 (SizeInBytes vb) ∧ in_int64 (ReadIOPS vb) ∧
  in_int64 (WriteIOPS vb) ∧ in_int64 (ReadBytes vb) ∧
  in_int64 (WriteBytes vb).

(** The errors the package builds. *)
Inductive error :=
  | ErrParseInt (e : GoStrconv.NumError)   (* a wrapped strconv error *)
  | ErrInvalidRawVolume (raw : string)     (* "invalid rawVolume: ..." *)
  | ErrDestMissing                         (* "dest must be provided" *)
  | ErrMonopolyLimited                     (* "monopoly volume must not be limited" *)
  | ErrInvalidIO.                          (* "invalid io parameters" *)

(** Error-passing for the parse of the numeric fields. *)
Definition bindE {A B} (m : error + A) (k : A → error + B) : error + B :=
  match m with
  | inl e => inl e
  | inr a => k a
  end.

Notation "x ←! m ; k" := (bindE m (λ x, k))
  (at level 20, m at level 100, k at level 200, only parsing).

Definition parseField (s : string) : error + Z :=
  match GoStrconv.ParseInt s with
  | inl e => inl (ErrParseInt e)
  | inr n => inr n
  end.

(** [RequireSchedule]. *)
Definition RequireSchedule (vb : VolumeBinding) : bool :=
  GoStrings.HasSuffix (Source vb) auto.

(** [RequireScheduleUnlimitedQuota]. *)
Definition RequireScheduleUnlimitedQuota (vb : VolumeBinding) : bool :=
  RequireSchedule vb && (SizeInBytes vb =? 0)%Z.

(** [RequireScheduleMonopoly]. *)
Definition RequireScheduleMonopoly (vb : VolumeBinding) : bool :=
  RequireSchedule vb && GoStrings.Contains (Flags vb) "m".

(** [ValidIOParameters]. *)
Definition ValidIOParameters (vb : VolumeBinding) : bool :=
  (0 <=? ReadIOPS vb)%Z && (0 <=? WriteIOPS vb)%Z &&
  (0 <=? ReadBytes vb)%Z && (0 <=? WriteBytes vb)%Z.

(** [Validate]: [None] is the nil error. *)
Definition Validate (vb : VolumeBinding) : option error :=
  if String.eqb (Destination vb) EmptyString then Some ErrDestMissing
  else if RequireScheduleMonopoly vb && RequireScheduleUnlimitedQuota vb
       then Some ErrMonopolyLimited
  else if negb (ValidIOParameters vb) then Some ErrInvalidIO
  else None.

(** The [switch len(parts)] of [NewVolumeBinding]; each case falls
    through to the next one. *)
Definition case2 (vb : VolumeBinding) (p0 p1 : string) : VolumeBinding :=
  mkVolumeBinding p0 p1 (Flags vb) (SizeInBytes vb)
    (ReadIOPS vb) (WriteIOPS vb) (ReadBytes vb) (WriteBytes vb).

Definition case3 (vb : VolumeBinding) (p0 p1 p2 : string) : VolumeBinding :=
  case2 (mkVolumeBinding (Source vb) (Destination vb) p2 (SizeInBytes vb)
           (ReadIOPS vb) (WriteIOPS vb) (ReadBytes vb) (WriteBytes vb)) p0 p1.

Definition case4 (vb : VolumeBinding) (p0 p1 p2 p3 : string)
  : error + VolumeBinding :=
  size ←! parseField p3;
  inr (case3 (mkVolumeBinding (Source vb) (Destination vb) (Flags vb) size
                (ReadIOPS vb) (WriteIOPS vb) (ReadBytes vb) (WriteBytes vb))
         p0 p1 p2).

Definition case8 (vb : VolumeBinding) (p0 p1 p2 p3 p4 p5 p6 p7 : string)
  : error + VolumeBinding :=
  riops ←! parseField p4;
  wiops ←! parseField p5;
  rbytes ←! parseField p6;
  wbytes ←! parseField p7;
  case4 (mkVolumeBinding (Source vb) (Destination vb) (Flags vb)
           (SizeInBytes vb) riops wiops rbytes wbytes) p0 p1 p2 p3.

Definition parseParts (raw : string) (parts : list string)
  : error + VolumeBinding :=
  match parts with
  | [p0; p1; p2; p3; p4; p5; p6; p7] =>
      case8 zeroVolumeBinding p0 p1 p2 p3 p4 p5 p6 p7
  | [p0; p1; p2; p3] => case4 zeroVolumeBinding p0 p1 p2 p3
  | [p0; p1; p2] => inr (case3 zeroVolumeBinding p0 p1 p2)
  | [p0; p1] => inr (case2 zeroVolumeBinding p0 p1)
  | _ => inl (ErrInvalidRawVolume raw)
  end.

(** The flag characters put in ascending order. *)
Definition sortFlags (flags : string) : string :=
  GoStrings.Join (GoSort.Strings (GoUtf8.explode flags)).

(** [NewVolumeBinding]: the pair (pointer, error) the Go function
    returns; the pointer is nil exactly when the parse itself failed. *)
Definition NewVolumeBinding (rawVolume : string)
  : option VolumeBinding * option error :=
  match parseParts rawVolume (GoStrings.Split rawVolume ":") with
  | inl e => (None, Some e)
  | inr vb =>
      let vb := mkVolumeBinding (Source vb) (Destination vb)
                  (sortFlags (Flags vb)) (SizeInBytes vb) (ReadIOPS vb)
                  (WriteIOPS vb) (ReadBytes vb) (WriteBytes vb) in
      (Some vb, Validate vb)
  end.

(** The flags as [ToString] prints them. *)
Definition emitFlags (flags : string) (normalize : bool) : string :=
  let flags := if normalize then GoStrings.ReplaceAll flags "m" EmptyString else flags in
  if GoStrings.Contains flags "o" then
    let flags := GoStrings.ReplaceAll flags "o" EmptyString in
    let flags := GoStrings.ReplaceAll flags "r" "ro" in
    GoStrings.ReplaceAll flags "w" "wo"
  else flags.

Definition anyIO (vb : VolumeBinding) : bool :=
  negb (ReadIOPS vb =? 0)%Z || negb (WriteIOPS vb =? 0)%Z ||
  negb (ReadBytes vb =? 0)%Z || negb (WriteBytes vb =? 0)%Z.

(** The three layouts [fmt.Sprintf] is called with. *)
Definition form2 (vb : VolumeBinding) : string :=
  Source vb +:+ ":" +:+ Destination vb.

Definition form4 (vb : VolumeBinding) (flags : string) : string :=
  Source vb +:+ ":" +:+ Destination vb +:+ ":" +:+ flags +:+ ":" +:+
  GoStrconv.FormatInt (SizeInBytes vb).

Definition form8 (vb : VolumeBinding) (flags : string) : string :=
  Source vb +:+ ":" +:+ Destination vb +:+ ":" +:+ flags +:+ ":" +:+
  GoStrconv.FormatInt (SizeInBytes vb) +:+ ":" +:+
  GoStrconv.FormatInt (ReadIOPS vb) +:+ ":" +:+
  GoStrconv.FormatInt (WriteIOPS vb) +:+ ":" +:+
  GoStrconv.FormatInt (ReadBytes vb) +:+ ":" +:+
  GoStrconv.FormatInt (WriteBytes vb).

(** [ToString]. *)
Definition ToString (vb : VolumeBinding) (normalize : bool) : string :=
  let flags := emitFlags (Flags vb) normalize in
  if String.eqb (Flags vb) EmptyString && (SizeInBytes vb =? 0)%Z then form2 vb
  else if anyIO vb then form8 vb flags
  else form4 vb flags.

(** ** Collections of bindings

    [VolumeBindings] is [[]*VolumeBinding]. The functions that only
    read through the pointers and build their result from scratch
    ([TotalSize], [MergeVolumeBindings]) are given on the sequence of
    pointed-to values; the ones whose effect on shared memory matters
    ([ToStringSlice], [IsEqual], [ApplyPlan]) are given on the store
    below. *)

(** [TotalSize]. *)
Definition TotalSize (vbs : list VolumeBinding) : Z :=
  foldl (λ total vb, wrap64 (total + SizeInBytes vb)) 0%Z vbs.

(** The five numbers [MergeVolumeBindings] keeps per key: the slice
    stored in [sizeMap] is always the five-element literal, never nil,
    so the test [sizeMap[key] == nil] never fires. *)
Record Para := mkPara {
  p_size : Z; p_riops : Z; p_wiops : Z; p_rbytes : Z; p_wbytes : Z
}.

Definition keyOf (vb : VolumeBinding) : string * string * string :=
  (Source vb, Destination vb, Flags vb).

Definition paraOf (vb : VolumeBinding) : Para :=
  mkPara (SizeInBytes vb) (ReadIOPS vb) (WriteIOPS vb)
    (ReadBytes vb) (WriteBytes vb).

(** The five [+=] of the loop body. *)
Definition addPara (p : Para) (vb : VolumeBinding) : Para :=
  mkPara (wrap64 (p_size p + SizeInBytes vb))
    (wrap64 (p_riops p + ReadIOPS vb))
    (wrap64 (p_wiops p + WriteIOPS vb))
    (wrap64 (p_rbytes p + ReadBytes vb))
    (wrap64 (p_wbytes p + WriteBytes vb)).

(** The body of the inner loop. *)
Definition mergeStep (sizeMap : gmap (string * string * string) Para)
    (vb : VolumeBinding) : gmap (string * string * string) Para :=
  match sizeMap !! keyOf vb with
  | None => <[keyOf vb := paraOf vb]> sizeMap
  | Some para => <[keyOf vb := addPara para vb]> sizeMap
  end.

(** The body of the second loop: a group of negative size is skipped. *)
Definition emitGroup (entry : (string * string * string) * Para)
  : option VolumeBinding :=
  let '((src, dst, flags), para) := entry in
  if (p_size para <? 0)%Z then None
  else Some (mkVolumeBinding src dst flags (p_size para) (p_riops para)
               (p_wiops para) (p_rbytes para) (p_wbytes para)).

(** [MergeVolumeBindings vbs1 vbs2...]. Go ranges over [sizeMap] in an
    unspecified order; [map_to_list] fixes one, and the statements
    about the result do not depend on it. *)
Definition MergeVolumeBindings (vbs1 : list VolumeBinding)
    (vbs2 : list (list VolumeBinding)) : list VolumeBinding :=
  let sizeMap := foldl (foldl mergeStep) ∅ (vbs2 ++ [vbs1]) in
  omap emitGroup (map_to_list sizeMap).

(** ** The store: slices of pointers

    A [*VolumeBinding] is an index into [objs]; an index outside of
    [objs] stands for nil, and dereferencing it panics ([None]). The
    backing arrays of all slices are laid out in [cells]; a slice is a
    window of it, so that two slices may share cells as in Go. *)
Record Slice := mkSlice { off : nat; len : nat }.

Record Store := mkStore {
  objs : list VolumeBinding;
  cells : list nat
}.

Definition deref (st : Store) (p : nat) : option VolumeBinding :=
  objs st !! p.

(** The pointers a slice holds. *)
Definition elems (st : Store) (vbs : Slice) : option (list nat) :=
  if decide (off vbs + len vbs ≤ length (cells st))
  then Some (take (len vbs) (drop (off vbs) (cells st)))
  else None.

(** The cells of a slice overwritten with [ps]. *)
Definition write (st : Store) (vbs : Slice) (ps : list nat) : Store :=
  mkStore (objs st)
    (take (off vbs) (cells st) ++ ps ++ drop (off vbs + len vbs) (cells st)).

(** The sort key of [ToStringSlice]; the pointers sorted are known to
    be non-nil. *)
Definition sortKey (st : Store) (p : nat) : string :=
  match deref st p with
  | Some vb => ToString vb false
  | None => EmptyString
  end.

(** [not (less q p)] for the [less] closure of [ToStringSlice]. *)
Definition keyLe (st : Store) (p q : nat) : Prop :=
  String.le (sortKey st p) (sortKey st q).

#[global] Instance keyLe_dec st : RelDecision (keyLe st).
Proof. intros p q. unfold keyLe. apply _. Defined.

(** [sort.Slice]: some ordering of the elements in which no element
    is less than its predecessor (which one, among elements of equal
    key, Go leaves open). *)
Definition sortSlice (st : Store) (ps : list nat) : list nat :=
  merge_sort (keyLe st) ps.

(** [ToStringSlice]. *)
Definition ToStringSlice (sorted normalize : bool) (st : Store)
    (vbs : Slice) : option (Store * list string) :=
  ps ← elems st vbs;
  _ ← mapM (deref st) ps;
  let ps' := if sorted then sortSlice st ps else ps in
  let st' := if sorted then write st vbs ps' else st in
  vals ← mapM (deref st') ps';
  Some (st', (λ vb, ToString vb normalize) <$> vals).

(** [IsEqual]. *)
Definition IsEqual (st : Store) (vbs vbs2 : Slice) : option (Store * bool) :=
  '(st1, s1) ← ToStringSlice true false st vbs;
  '(st2, s2) ← ToStringSlice true false st1 vbs2;
  Some (st2, bool_decide (s1 = s2)).

(** [ApplyPlan]. [VolumePlan], [VolumeMap] and their methods are
    declared in another file of the package; the function is given
    for any plan type whose [GetVolumeMap] is a lookup that answers
    with a volume map or with nil. *)
Section ApplyPlan.
Context {VolumePlan VolumeMap : Type}.
Variable GetVolumeMap : VolumePlan → VolumeBinding → option VolumeMap.
Variable GetResourceID : VolumeMap → string.

Definition setSource (vb : VolumeBinding) (src : string) : VolumeBinding :=
  mkVolumeBinding src (Destination vb) (Flags vb) (SizeInBytes vb)
    (ReadIOPS vb) (WriteIOPS vb) (ReadBytes vb) (WriteBytes vb).

(** What the new binding made for [vb] holds. *)
Definition planned (plan : VolumePlan) (vb : VolumeBinding) : VolumeBinding :=
  match GetVolumeMap plan vb with
  | Some vmap => setSource vb (GetResourceID vmap)
  | None => vb
  end.

(** The loop: [st] is the store so far, [res] the result so far. *)
Fixpoint ApplyPlan_loop (plan : VolumePlan) (st : Store) (ps : list nat)
    (res : list nat) : option (Store * list nat) :=
  match ps with
  | [] => Some (st, res)
  | p :: ps' =>
      tmp ← deref st p;
      let newVb := length (objs st) in
      let st1 := mkStore (objs st ++ [tmp]) (cells st) in
      vb ← deref st1 p;
      let st2 :=
        match GetVolumeMap plan vb with
        | Some vmap =>
            mkStore (<[newVb := setSource tmp (GetResourceID vmap)]> (objs st1))
              (cells st1)
        | None => st1
        end in
      ApplyPlan_loop plan st2 ps' (res ++ [newVb])
  end.

(** The result slice gets a backing array of its own, after all the
    cells in use. *)
Definition ApplyPlan (plan : VolumePlan) (st : Store) (vbs : Slice)
  : option (Store * Slice) :=
  ps ← elems st vbs;
  '(st', res) ← ApplyPlan_loop plan st ps [];
  Some (mkStore (objs st') (cells st' ++ res),
        mkSlice (length (cells st')) (length res)).
End ApplyPlan.

(** ** The remaining functions of the file *)

(** [NewVolumeBindings]: [volumeBindings] is the slice built so far (a
    nil slice and an empty one are both the empty list), and the first
    error ends the loop with the nil slice. [NewVolumeBinding] never
    returns the nil pointer with the nil error, so the appended
    pointer is never nil. *)
Fixpoint NewVolumeBindings_loop (volumeBindings : list VolumeBinding)
    (volumes : list string) : list VolumeBinding * option error :=
  match volumes with
  | [] => (volumeBindings, None)
  | vb :: volumes' =>
      match NewVolumeBinding vb with
      | (_, Some err) => ([], Some err)
      | (Some volumeBinding, None) =>
          NewVolumeBindings_loop (volumeBindings ++ [volumeBinding]) volumes'
      | (None, None) => NewVolumeBindings_loop volumeBindings volumes'
      end
  end.

Definition NewVolumeBindings (volumes : list string)
  : list VolumeBinding * option error :=
  NewVolumeBindings_loop [] volumes.

(** The errors of [UnmarshalJSON]: the one of [json.Unmarshal], or one
    of [NewVolumeBindings]. *)
Inductive jsonError :=
  | ErrJSON
  | ErrVolume (e : error).

(** [MarshalJSON] and [UnmarshalJSON], for any codec of string arrays
    standing for [json.Marshal] and [json.Unmarshal] ([None] is its
    error). [json.Marshal] has no error on a string array, so
    [MarshalJSON] is given by the bytes alone. [UnmarshalJSON] takes
    the old value of the receiver and returns the new one. *)
Section JSON.
Variable json_Marshal : list string → string.
Variable json_Unmarshal : string → option (list string).

Definition MarshalJSON (vbs : list VolumeBinding) : string :=
  json_Marshal (foldl (λ volumes vb, volumes ++ [ToString vb false]) [] vbs).

Definition UnmarshalJSON (vbs : list VolumeBinding) (b : string)
  : list VolumeBinding * option jsonError :=
  match json_Unmarshal b with
  | None => (vbs, Some ErrJSON)
  | Some volumes =>
      let '(vbs', err) := NewVolumeBindings volumes in
      (vbs', ErrVolume <$> err)
  end.
End JSON.

(** [Divide], on the store: [soft] and [hard] are the two slices built
    so far; they get backing arrays of their own and hold the very
    pointers of the receiver. *)
Fixpoint Divide_loop (st : Store) (ps : list nat) (soft hard : list nat)
  : option (list nat * list nat) :=
  match ps with
  | [] => Some (soft, hard)
  | p :: ps' =>
      vb ← deref st p;
      if GoStrings.HasSuffix (Source vb) auto
      then Divide_loop st ps' (soft ++ [p]) hard
      else Divide_loop st ps' soft (hard ++ [p])
  end.

Definition Divide (st : Store) (vbs : Slice) : option (Store * Slice * Slice) :=
  ps ← elems st vbs;
  '(soft, hard) ← Divide_loop st ps [] [];
  Some (mkStore (objs st) (cells st ++ soft ++ hard),
        mkSlice (length (cells st)) (length soft),
        mkSlice (length (cells st) + length soft) (length hard)).

(** ** Vocabulary of the statements and of their proofs *)

(** A numeral is made of digits only. *)
Definition numeral_char (c : ascii) : bool :=
  match GoStrconv.digit c with Some _ => true | None => false end.

Fixpoint all_numeral (s : string) : bool :=
  match s with
  | EmptyString => true
  | String c r => numeral_char c && all_numeral r
  end.

(** What may follow a chunk in a sorted sequence: nothing, or a
    byte that is not below the first byte of the chunk. *)
Definition le_head (c rest : string) : Prop :=
  match c, rest with
  | String b _, String b' _ => (GoUtf8.byte_val b ≤ GoUtf8.byte_val b')%N
  | _, _ => True
  end.

(** A chunk that is decoded as a whole again when it is followed by
    [rest]. *)
Definition stable (c : string) : Prop :=
  c ≠ EmptyString ∧
  ∀ rest, le_head c rest →
    GoUtf8.DecodeRuneInString_size (c +:+ rest) = String.length c.

(** The test of the first [case] of [ToString]. *)
Definition bare (vb : VolumeBinding) : Prop :=
  Flags vb = EmptyString ∧ SizeInBytes vb = 0%Z.

(** The arities [NewVolumeBinding] has a [case] for. *)
Definition legalArity (n : nat) : Prop := n = 2 ∨ n = 3 ∨ n = 4 ∨ n = 8.

Definition noColon (s : string) : Prop := GoStrings.Contains s ":" = false.

(** The words of the specification: bindings are grouped by the
    triple (source, destination, flags), and the five numbers of a
    group are the [int64] sums over the group. *)
Definition sumZ (f : VolumeBinding → Z) (l : list VolumeBinding) : Z :=
  foldr (λ vb a, f vb + a)%Z 0%Z l.

Definition sum64 (f : VolumeBinding → Z) (l : list VolumeBinding) : Z :=
  wrap64 (sumZ f l).

Definition group (k : string * string * string) (l : list VolumeBinding)
  : list VolumeBinding :=
  filter (λ vb, keyOf vb = k) l.

Definition merged (k : string * string * string) (g : list VolumeBinding)
  : VolumeBinding :=
  mkVolumeBinding k.1.1 k.1.2 k.2
    (sum64 SizeInBytes g) (sum64 ReadIOPS g) (sum64 WriteIOPS g)
    (sum64 ReadBytes g) (sum64 WriteBytes g).

(** A group is kept when its summed size is not negative. *)
Definition kept (inputs : list VolumeBinding) (k : string * string * string)
  : Prop :=
  (0 <= sum64 SizeInBytes (group k inputs))%Z.

(** What [sizeMap] holds for a group. *)
Definition paraSums (g : list VolumeBinding) : Para :=
  mkPara (sum64 SizeInBytes g) (sum64 ReadIOPS g) (sum64 WriteIOPS g)
    (sum64 ReadBytes g) (sum64 WriteBytes g).

Definition groupPara (k : string * string * string) (l : list VolumeBinding)
  : option Para :=
  match group k l with
  | [] => None
  | g => Some (paraSums g)
  end.

(** An entry [p] of [sizeMap] after the bindings [g] were added. *)
Definition accPara (p : Para) (g : list VolumeBinding) : Para :=
  mkPara (wrap64 (p_size p + sumZ SizeInBytes g))
    (wrap64 (p_riops p + sumZ ReadIOPS g))
    (wrap64 (p_wiops p + sumZ WriteIOPS g))
    (wrap64 (p_rbytes p + sumZ ReadBytes g))
    (wrap64 (p_wbytes p + sumZ WriteBytes g)).

Definition para_wf (p : Para) : Prop :=
  in_int64 (p_size p) ∧ in_int64 (p_riops p) ∧ in_int64 (p_wiops p) ∧
  in_int64 (p_rbytes p) ∧ in_int64 (p_wbytes p).

#[global] Instance kept_dec inputs k : Decision (kept inputs k).
Proof. unfold kept. apply _. Defined.

(** The bindings a slice points to. *)
Definition values (st : Store) (vbs : Slice) : option (list VolumeBinding) :=
  ps ← elems st vbs;
  mapM (deref st) ps.

(** Two slices that share no cell. *)
Definition disjoint (vbs vbs2 : Slice) : Prop :=
  off vbs + len vbs ≤ off vbs2 ∨ off vbs2 + len vbs2 ≤ off vbs.

(** What parsing the emission of [vb] gives: the flags as emitted and
    sorted again, and no IO quotas when the 2-field form was used. *)
Definition reparsed (vb : VolumeBinding) (normalize : bool) : VolumeBinding :=
  let quota (q : Z) :=
    if String.eqb (Flags vb) EmptyString && (SizeInBytes vb =? 0)%Z
    then 0%Z else q in
  mkVolumeBinding (Source vb) (Destination vb)
    (sortFlags (emitFlags (Flags vb) normalize)) (SizeInBytes vb)
    (quota (ReadIOPS vb)) (quota (WriteIOPS vb))
    (quota (ReadBytes vb)) (quota (WriteBytes vb)).

(** The flags of [vb] without the letter [m]. *)
Definition dropMonopoly (vb : VolumeBinding) : VolumeBinding :=
  mkVolumeBinding (Source vb) (Destination vb)
    (GoStrings.ReplaceAll (Flags vb) "m" EmptyString) (SizeInBytes vb)
    (ReadIOPS vb) (WriteIOPS vb) (ReadBytes vb) (WriteBytes vb).

(** An error of the parse itself, as opposed to one of [Validate]. *)
Definition parseError (raw : string) (e : error) : Prop :=
  e = ErrInvalidRawVolume raw ∨ ∃ n, e = ErrParseInt n.

(** A binding in the form emission and parsing keep: [int64] numbers,
    no colon in the three strings, flags that emission and sorting
    give back, and no IO quota hidden behind the 2-field form. *)
Definition canonical (vb : VolumeBinding) : Prop :=
  wf_binding vb ∧
  noColon (Source vb) ∧ noColon (Destination vb) ∧ noColon (Flags vb) ∧
  sortFlags (emitFlags (Flags vb) false) = Flags vb ∧
  (bare vb → anyIO vb = false).

(** The strings [volumes] all parse and validate, to [vbs]. *)
Definition allParse (volumes : list string) (vbs : list VolumeBinding) : Prop :=
  Forall2 (λ raw vb, NewVolumeBinding raw = (Some vb, None)) volumes vbs.

(** The pointer [p] is to a binding whose source ends in [AUTO]. *)
Definition isSoft (st : Store) (p : nat) : bool :=
  match deref st p with
  | Some vb => RequireSchedule vb
  | None => false
  end.

(** The binding a non-nil pointer is to. *)
Definition target (st : Store) (p : nat) : VolumeBinding :=
  default zeroVolumeBinding (deref st p).

(** A stand-in for the JSON codec in examples: every string followed
    by a semicolon. *)
Definition lineMarshal (l : list string) : string :=
  GoStrings.Join ((λ s, s +:+ ";") <$> l).

Definition lineUnmarshal (b : string) : option (list string) :=
  Some (removelast (GoStrings.Split b ";")).

(** ** Example bindings and stores *)

Definition rawS1 : string := "AUTO:/data:rwm:1024:10:20:4096:8192".

Definition vbS1 : VolumeBinding :=
  mkVolumeBinding "AUTO" "/data" "mrw" 1024 10 20 4096 8192.

Definition vbQuotaOnly : VolumeBinding :=
  mkVolumeBinding "a" "b" EmptyString 0 1 0 0 0.

Definition vbUnsorted : VolumeBinding := mkVolumeBinding "/h" "/c" "wr" 0 0 0 0 0.

Definition vbExclusive : VolumeBinding := mkVolumeBinding "/h" "/c" "orw" 0 0 0 0 0.

Definition vbColon : VolumeBinding := mkVolumeBinding "h:x" "/c" EmptyString 0 0 0 0 0.

Definition vbPlus100 : VolumeBinding := mkVolumeBinding "AUTO" "/d" "rw" 100 0 0 0 0.

Definition vbMinus100 : VolumeBinding := mkVolumeBinding "AUTO" "/d" "rw" (-100) 0 0 0 0.

Definition vbMinus200 : VolumeBinding := mkVolumeBinding "AUTO" "/d" "rw" (-200) 0 0 0 0.

(** A store with two bindings, and a slice over both. *)
Definition stPlan : Store :=
  mkStore [mkVolumeBinding "AUTO" "/data" "rw" 100 0 0 0 0;
           mkVolumeBinding "/host" "/etc" "ro" 0 0 0 0 0] [0; 1].

(** A plan that assigns the device [/dev0] to every auto binding. *)
Definition planDev0 (_ : unit) (vb : VolumeBinding) : option string :=
  if RequireSchedule vb then Some "/dev0" else None.

(** Two bindings stored in descending order of their string form, and
    two slices over them with a backing array each. *)
Definition stTwo : Store :=
  mkStore [mkVolumeBinding "/b" "/data" "rw" 0 0 0 0 0;
           mkVolumeBinding "/a" "/data" "rw" 0 0 0 0 0] [0; 1; 0; 1].

Definition sliceLeft : Slice := mkSlice 0 2.

Definition sliceRight : Slice := mkSlice 2 2.

(** Two bindings whose order by string form is not the order of their
    normalized string forms. *)
Definition stNorm : Store :=
  mkStore [mkVolumeBinding "a" "b" "l" 1 0 0 0 0;
           mkVolumeBinding "a" "b" "m" 1 0 0 0 0] [0; 1].

(** Two bindings that differ by an IO quota only, in a slice each. *)
Definition stQuota : Store :=
  mkStore [vbQuotaOnly; mkVolumeBinding "a" "b" EmptyString 0 0 0 0 0] [0; 1].

(** * Theorems *)

(** ** Facts about the library functions *)

Section strings_facts.
Import GoStrings.

Lemma app_nil_s (t : string) : EmptyString +:+ t = t.
Proof. reflexivity. Qed.

Lemma app_cons_s (c : ascii) (s t : string) :
  String c s +:+ t = String c (s +:+ t).
Proof. reflexivity. Qed.

Lemma length_app_s (s t : string) :
  String.length (s +:+ t) = (String.length s + String.length t)%nat.
Proof.
  induction s as [|c s IH]; [done |].
  rewrite app_cons_s. simpl. by rewrite IH.
Qed.

Lemma app_assoc_s (s t u : string) : (s +:+ t) +:+ u = s +:+ (t +:+ u).
Proof.
  induction s as [|c s IH]; [done |].
  by rewrite !app_cons_s, IH.
Qed.

Lemma app_empty_r (s : string) : s +:+ EmptyString = s.
Proof.
  induction s as [|c s IH]; [done |].
  by rewrite app_cons_s, IH.
Qed.

Lemma Contains_app (s t : string) (c : ascii) :
  Contains (s +:+ t) c = Contains s c || Contains t c.
Proof.
  induction s as [|a s IH]; [done |].
  rewrite app_cons_s. simpl. rewrite IH. by destruct (Ascii.eqb a c).
Qed.

Lemma Split_nonempty (s : string) (sep : ascii) : Split s sep ≠ [].
Proof.
  induction s as [|c s IH]; simpl; [done |].
  destruct (Ascii.eqb c sep); [done |].
  by destruct (Split s sep).
Qed.

(** A field without separator is split off whole. *)
Lemma Split_field (a rest : string) (sep : ascii) :
  Contains a sep = false →
  Split (a +:+ String sep rest) sep = a :: Split rest sep.
Proof.
  induction a as [|c a IH]; intros Hc.
  - rewrite app_nil_s. simpl. by rewrite Ascii.eqb_refl.
  - simpl in Hc. apply orb_false_iff in Hc as [Hc1 Hc2].
    rewrite app_cons_s. simpl. by rewrite Hc1, (IH Hc2).
Qed.

Lemma Split_last (a : string) (sep : ascii) :
  Contains a sep = false → Split a sep = [a].
Proof.
  induction a as [|c a IH]; simpl; intros Hc; [done |].
  apply orb_false_iff in Hc as [Hc1 Hc2].
  by rewrite Hc1, (IH Hc2).
Qed.

Lemma ReplaceAll_Contains (s : string) (old c : ascii) (new : string) :
  Contains s c = false → Contains new c = false →
  Contains (ReplaceAll s old new) c = false.
Proof.
  intros Hs Hn. induction s as [|a s IH]; simpl in *; [done |].
  apply orb_false_iff in Hs as [Hs1 Hs2].
  destruct (Ascii.eqb a old).
  - rewrite Contains_app, Hn. by apply IH.
  - simpl. rewrite Hs1. by apply IH.
Qed.

Lemma ReplaceAll_absent (s : string) (old : ascii) (new : string) :
  Contains s old = false → ReplaceAll s old new = s.
Proof.
  induction s as [|a s IH]; simpl; intros Hs; [done |].
  apply orb_false_iff in Hs as [Hs1 Hs2].
  by rewrite Hs1, (IH Hs2).
Qed.

Lemma take_drop_s (n : nat) (s : string) : take n s +:+ drop n s = s.
Proof.
  revert s; induction n as [|n IH]; intros [|c s]; simpl; try done.
  by rewrite app_cons_s, IH.
Qed.

Lemma eqb_empty (s : string) : String.eqb s EmptyString = true ↔ s = EmptyString.
Proof. apply String.eqb_eq. Qed.
End strings_facts.

(** Decimal numerals: [ParseInt] reads back what [%d] prints. *)
Section strconv_facts.
Import GoStrconv.

Lemma digit_pretty (d : N) :
  (d < 10)%N → digit (pretty_N_char d) = Some (Z.of_N d).
Proof.
  intros Hd.
  assert (d = 0 ∨ d = 1 ∨ d = 2 ∨ d = 3 ∨ d = 4 ∨ d = 5 ∨ d = 6 ∨
          d = 7 ∨ d = 8 ∨ d = 9)%N as Hcase by lia.
  repeat (destruct Hcase as [-> | Hcase]; [reflexivity |]).
  by subst.
Qed.

Lemma digits_pretty_go (x : N) (s : string) :
  (Z.of_N x <= maxUint64)%Z →
  digits 0 (pretty_N_go x s) = digits (Z.of_N x) s.
Proof.
  revert s. induction (N.lt_wf_0 x) as [x _ IH]; intros s Hx.
  destruct (decide (x = 0%N)) as [-> | Hne]; [done |].
  rewrite pretty_N_go_step by lia.
  assert (x `div` 10 < x)%N as Hlt by (apply N.div_lt; lia).
  rewrite (IH _ Hlt) by lia.
  simpl. rewrite digit_pretty by (apply N.mod_lt; lia).
  assert (Z.of_N (x `div` 10) * 10 + Z.of_N (x `mod` 10) = Z.of_N x)%Z
    as -> by (pose proof (N.div_mod x 10); lia).
  by rewrite (proj2 (Z.ltb_ge _ _) Hx).
Qed.


Lemma all_numeral_go (x : N) (s : string) :
  all_numeral s = true → all_numeral (pretty_N_go x s) = true.
Proof.
  revert s. induction (N.lt_wf_0 x) as [x _ IH]; intros s Hs.
  destruct (decide (x = 0%N)) as [-> | Hne]; [done |].
  rewrite pretty_N_go_step by lia.
  apply IH; [apply N.div_lt; lia |].
  simpl. rewrite Hs, andb_true_r. unfold numeral_char.
  by rewrite digit_pretty by (apply N.mod_lt; lia).
Qed.

Lemma pretty_go_keeps (x : N) (s : string) :
  s ≠ EmptyString → pretty_N_go x s ≠ EmptyString.
Proof.
  revert s. induction (N.lt_wf_0 x) as [x _ IH]; intros s Hs.
  destruct (decide (x = 0%N)) as [-> | Hne]; [done |].
  rewrite pretty_N_go_step by lia.
  apply IH; [apply N.div_lt; lia | done].
Qed.

Lemma pretty_go_nonempty (x : N) (s : string) :
  (0 < x)%N → pretty_N_go x s ≠ EmptyString.
Proof.
  intros Hx. rewrite pretty_N_go_step by done. by apply pretty_go_keeps.
Qed.

Lemma all_numeral_Contains (s : string) (c : ascii) :
  all_numeral s = true → numeral_char c = false → GoStrings.Contains s c = false.
Proof.
  intros Hs Hc. induction s as [|a s IH]; simpl in *; [done |].
  apply andb_true_iff in Hs as [Ha Hs].
  rewrite (IH Hs), orb_false_r.
  destruct (Ascii.eqb_spec a c) as [-> | _]; [congruence | done].
Qed.

Lemma FormatInt_pos (p : positive) :
  FormatInt (Z.pos p) = pretty_N_go (N.pos p) EmptyString.
Proof. done. Qed.

Lemma FormatInt_neg (p : positive) :
  FormatInt (Z.neg p) = String "-" (pretty_N_go (N.pos p) EmptyString).
Proof. done. Qed.

Lemma FormatInt_no_colon (z : Z) : GoStrings.Contains (FormatInt z) ":" = false.
Proof.
  destruct z as [|p|p]; [done | |].
  - rewrite FormatInt_pos. apply all_numeral_Contains; [|done].
    by apply all_numeral_go.
  - rewrite FormatInt_neg. simpl. apply all_numeral_Contains; [|done].
    by apply all_numeral_go.
Qed.

Lemma digits_nonneg (s : string) (a n : Z) :
  (0 <= a)%Z → digits a s = inr n → (0 <= n)%Z.
Proof.
  revert a. induction s as [|c s IH]; simpl; intros a Ha Heq.
  - by simplify_eq.
  - unfold digit in Heq.
    destruct (_ && _) eqn:Hc; [|done].
    apply andb_true_iff in Hc as [?%Z.leb_le ?%Z.leb_le].
    destruct (_ <? _)%Z; [done |].
    eapply IH; [|done]. lia.
Qed.

Lemma numeral_head (s : string) :
  s ≠ EmptyString → all_numeral s = true →
  ∃ c r, s = String c r ∧ Ascii.eqb c "+" = false ∧ Ascii.eqb c "-" = false.
Proof.
  destruct s as [|c r]; [done |]. intros _ Hall. simpl in Hall.
  apply andb_true_iff in Hall as [Hc _].
  exists c, r. split; [done |].
  split.
  - destruct (Ascii.eqb_spec c "+") as [-> | ?]; [by vm_compute in Hc | done].
  - destruct (Ascii.eqb_spec c "-") as [-> | ?]; [by vm_compute in Hc | done].
Qed.

Lemma ParseInt_numeral (s : string) (n : Z) :
  s ≠ EmptyString → all_numeral s = true → digits 0 s = inr n →
  (n <= int64_max)%Z → ParseInt s = inr n.
Proof.
  intros Hne Hall Hd Hn.
  pose proof (digits_nonneg _ _ _ (Z.le_refl 0) Hd) as Hpos.
  destruct (numeral_head s Hne Hall) as (c & r & -> & Hp & Hm).
  unfold ParseInt. rewrite Hp, Hm, Hd.
  assert ((int64_min <=? n)%Z && (n <=? int64_max)%Z = true) as ->; [|done].
  apply andb_true_iff; split; apply Z.leb_le; unfold int64_min; lia.
Qed.

Lemma ParseInt_minus_numeral (s : string) (n : Z) :
  s ≠ EmptyString → digits 0 s = inr n → (n <= 2 ^ 63)%Z →
  ParseInt (String "-" s) = inr (- n)%Z.
Proof.
  intros Hne Hd Hn.
  pose proof (digits_nonneg _ _ _ (Z.le_refl 0) Hd) as Hpos.
  unfold ParseInt.
  change (Ascii.eqb "-" "+") with false. change (Ascii.eqb "-" "-") with true.
  cbv iota beta. destruct s as [|c r]; [done |]. rewrite Hd.
  assert ((int64_min <=? - n)%Z && (- n <=? int64_max)%Z = true) as ->; [|done].
  apply andb_true_iff; split; apply Z.leb_le; unfold int64_min, int64_max; lia.
Qed.

(** [ParseInt] inverts [%d] on every [int64]. *)
Lemma ParseInt_FormatInt (z : Z) :
  in_int64 z → ParseInt (FormatInt z) = inr z.
Proof.
  unfold in_int64, int64_min, int64_max. intros Hz.
  destruct z as [|p|p]; [done | |].
  - rewrite FormatInt_pos. apply ParseInt_numeral.
    + by apply pretty_go_nonempty.
    + by apply all_numeral_go.
    + rewrite digits_pretty_go by (unfold maxUint64; lia). done.
    + unfold int64_max. lia.
  - rewrite FormatInt_neg.
    apply (ParseInt_minus_numeral _ (Z.pos p)).
    + by apply pretty_go_nonempty.
    + rewrite digits_pretty_go by (unfold maxUint64; lia). done.
    + lia.
Qed.
End strconv_facts.

(** UTF-8 chunks: sorting the chunks and joining them commutes with
    cutting into chunks. *)
Section utf8_facts.
Import GoUtf8.

Lemma first_inv (b : N) (sz : nat) (lo hi : N) :
  first b = Some (sz, lo, hi) →
  (sz = 2 ∨ sz = 3 ∨ sz = 4) ∧ (0x80 ≤ lo)%N ∧ (hi ≤ 0xBF)%N ∧ (0xC2 ≤ b)%N.
Proof.
  unfold first. destruct (N.ltb_spec b 0xC2); [done |].
  repeat case_match; intros [= <- <- <-]; split_and!; auto; lia.
Qed.


Lemma lone_byte_stable (c0 : ascii) :
  (byte_val c0 < 0xC2 → first (byte_val c0) = None)%N →
  stable (String c0 EmptyString).
Proof.
  intros Hnone. split; [done |]. intros rest Hle.
  rewrite app_cons_s, app_nil_s. unfold DecodeRuneInString_size.
  destruct (first (byte_val c0)) as [[[sz lo] hi] |] eqn:Hf; [|done].
  destruct (first_inv _ _ _ _ Hf) as (Hsz & Hlo & Hhi & Hb).
  destruct (_ <? sz); [done |].
  destruct rest as [|c1 r1]; [done |]. simpl in Hle.
  assert ((hi <? byte_val c1)%N = true) as -> by (apply N.ltb_lt; lia).
  by rewrite orb_true_r.
Qed.

Lemma first_chunk_stable (s : string) :
  s ≠ EmptyString → stable (GoStrings.take (DecodeRuneInString_size s) s).
Proof.
  destruct s as [|c0 r]; [done |]. intros _.
  assert (stable (String c0 EmptyString)) as Hlone.
  { apply lone_byte_stable. intros Hlt. unfold first.
    by destruct (N.ltb_spec (byte_val c0) 0xC2); [|lia]. }
  unfold DecodeRuneInString_size.
  destruct (first (byte_val c0)) as [[[sz lo] hi] |] eqn:Hf; [|done].
  destruct (first_inv _ _ _ _ Hf) as (Hsz & Hlo & Hhi & Hb).
  destruct (_ <? sz) eqn:Hlen; [done |].
  destruct r as [|c1 r1]; [done |].
  destruct (_ || _) eqn:H1; [done |].
  destruct (sz <=? 2) eqn:H2.
  { split; [done |]. intros rest _. simpl GoStrings.take.
    rewrite !app_cons_s, app_nil_s. unfold DecodeRuneInString_size.
    rewrite Hf, H1, H2.
    apply Nat.leb_le in H2.
    assert (sz = 2) as -> by lia. done. }
  destruct r1 as [|c2 r2]; [done |].
  destruct (negb (is_cont c2)) eqn:H3; [done |].
  destruct (sz <=? 3) eqn:H4.
  { split; [done |]. intros rest _. simpl GoStrings.take.
    rewrite !app_cons_s, app_nil_s. unfold DecodeRuneInString_size.
    rewrite Hf, H1, H2, H3, H4.
    apply Nat.leb_le in H4. apply Nat.leb_gt in H2.
    assert (sz = 3) as -> by lia. done. }
  destruct r2 as [|c3 r3]; [done |].
  destruct (negb (is_cont c3)) eqn:H5; [done |].
  split; [done |]. intros rest _. simpl GoStrings.take.
  rewrite !app_cons_s, app_nil_s. unfold DecodeRuneInString_size.
  rewrite Hf, H1, H2, H3, H4, H5.
  apply Nat.leb_gt in H4.
  assert (sz = 4) as -> by lia. done.
Qed.

Lemma size_pos (s : string) : s ≠ EmptyString → 1 ≤ DecodeRuneInString_size s.
Proof.
  intros Hs. unfold DecodeRuneInString_size. repeat case_match; done || lia.
Qed.

Lemma length_drop_s (n : nat) (s : string) :
  String.length (GoStrings.drop n s) = String.length s - n.
Proof. revert s; induction n as [|n IH]; intros [|c s]; simpl; auto. Qed.

Lemma take_app_length_s (c rest : string) :
  GoStrings.take (String.length c) (c +:+ rest) = c.
Proof.
  induction c as [|a c IH]; [by destruct rest |].
  rewrite app_cons_s. simpl. by rewrite IH.
Qed.

Lemma drop_app_length_s (c rest : string) :
  GoStrings.drop (String.length c) (c +:+ rest) = rest.
Proof.
  induction c as [|a c IH]; [done |].
  rewrite app_cons_s. simpl. by rewrite IH.
Qed.

Lemma Join_cons (c : string) (cs : list string) :
  GoStrings.Join (c :: cs) = c +:+ GoStrings.Join cs.
Proof. reflexivity. Qed.

(** Joining the chunks gives the string back. *)
Lemma Join_explode_go (fuel : nat) (s : string) :
  String.length s ≤ fuel → GoStrings.Join (explode_go fuel s) = s.
Proof.
  revert s. induction fuel as [|fuel IH]; intros s Hlen.
  - destruct s; [done | simpl in Hlen; lia].
  - destruct s as [|c r]; [done |].
    change (explode_go (S fuel) (String c r)) with
      (GoStrings.take (DecodeRuneInString_size (String c r)) (String c r)
         :: explode_go fuel
              (GoStrings.drop (DecodeRuneInString_size (String c r)) (String c r))).
    pose proof (size_pos (String c r) ltac:(done)) as Hp.
    set (n := DecodeRuneInString_size (String c r)) in *.
    rewrite Join_cons, IH; [apply take_drop_s |].
    rewrite length_drop_s.
    change (String.length (String c r)) with (S (String.length r)) in *. lia.
Qed.

Lemma Join_explode (s : string) : GoStrings.Join (explode s) = s.
Proof. by apply Join_explode_go. Qed.

Lemma explode_go_stable (fuel : nat) (s : string) :
  Forall stable (explode_go fuel s).
Proof.
  revert s. induction fuel as [|fuel IH]; intros s; [constructor |].
  destruct s as [|c r]; [constructor |].
  constructor; [by apply first_chunk_stable | apply IH].
Qed.

Lemma le_byte_head (b b' : ascii) (s s' : string) :
  String.le (String b s) (String b' s') → (byte_val b ≤ byte_val b')%N.
Proof.
  unfold String.le, String.leb. simpl. unfold Ascii.compare, byte_val.
  destruct (N.compare_spec (N_of_ascii b) (N_of_ascii b')); [lia | lia | done].
Qed.

(** Sorted stable chunks are the chunks of their concatenation. *)
Lemma explode_go_Join (cs : list string) (fuel : nat) :
  Forall stable cs → Sorted String.le cs →
  String.length (GoStrings.Join cs) ≤ fuel →
  explode_go fuel (GoStrings.Join cs) = cs.
Proof.
  revert fuel. induction cs as [|c cs IH]; intros fuel Hst Hso Hlen.
  - by destruct fuel.
  - apply Forall_cons in Hst as [[Hne Hc] Hst].
    apply Sorted_inv in Hso as [Hso Hhd].
    rewrite Join_cons in *. rewrite length_app_s in Hlen.
    assert (le_head c (GoStrings.Join cs)) as Hle.
    { destruct Hhd as [|c' cs' Hcc']; [by destruct c |].
      apply Forall_cons in Hst as [[Hne' _] _].
      destruct c as [|b t]; [done |]. destruct c' as [|b' t']; [done |].
      simpl. by eapply le_byte_head. }
    specialize (Hc _ Hle).
    destruct c as [|b t]; [done |]. simpl in Hlen.
    destruct fuel as [|fuel]; [lia |].
    rewrite app_cons_s in *.
    change (explode_go (S fuel) (String b ?r)) with
      (GoStrings.take (DecodeRuneInString_size (String b r)) (String b r)
         :: explode_go fuel
              (GoStrings.drop (DecodeRuneInString_size (String b r)) (String b r))).
    rewrite Hc. rewrite <- app_cons_s.
    rewrite take_app_length_s, drop_app_length_s.
    f_equal. apply IH; [done | done | lia].
Qed.

Lemma explode_Join (cs : list string) :
  Forall stable cs → Sorted String.le cs → explode (GoStrings.Join cs) = cs.
Proof. intros. by apply explode_go_Join. Qed.
End utf8_facts.

Lemma explode_sortFlags (flags : string) :
  GoUtf8.explode (sortFlags flags) = GoSort.Strings (GoUtf8.explode flags).
Proof.
  unfold sortFlags, GoSort.Strings. apply explode_Join.
  - rewrite merge_sort_Permutation. apply explode_go_stable.
  - apply (Sorted_merge_sort _).
Qed.

Lemma sortFlags_sorted (flags : string) :
  Sorted String.le (GoUtf8.explode (sortFlags flags)).
Proof. rewrite explode_sortFlags. apply (Sorted_merge_sort _). Qed.

(** Sorting keeps the characters: those of the sorted flags are those
    of the flags, each as often. *)
Lemma explode_sortFlags_Permutation (flags : string) :
  GoUtf8.explode (sortFlags flags) ≡ₚ GoUtf8.explode flags.
Proof. rewrite explode_sortFlags. apply merge_sort_Permutation. Qed.

(** Flags already in order are left alone. *)
Lemma sortFlags_fixed (flags : string) :
  Sorted String.le (GoUtf8.explode flags) → sortFlags flags = flags.
Proof.
  intros Hs. unfold sortFlags, GoSort.Strings.
  rewrite (Sorted_unique String.le (merge_sort String.le (GoUtf8.explode flags))
             (GoUtf8.explode flags)).
  - apply Join_explode.
  - apply (Sorted_merge_sort _).
  - done.
  - apply merge_sort_Permutation.
Qed.

(** ** Validation *)

Lemma Validate_cases (vb : VolumeBinding) :
  Validate vb =
    if String.eqb (Destination vb) EmptyString then Some ErrDestMissing
    else if RequireScheduleMonopoly vb && RequireScheduleUnlimitedQuota vb
         then Some ErrMonopolyLimited
    else if ValidIOParameters vb then None else Some ErrInvalidIO.
Proof. unfold Validate. by repeat case_match. Qed.

Lemma ValidIOParameters_spec (vb : VolumeBinding) :
  ValidIOParameters vb = true ↔
  (0 <= ReadIOPS vb ∧ 0 <= WriteIOPS vb ∧
   0 <= ReadBytes vb ∧ 0 <= WriteBytes vb)%Z.
Proof.
  unfold ValidIOParameters. rewrite !andb_true_iff, !Z.leb_le. tauto.
Qed.

(** C6. [Validate vb] returns an error if and only if the destination
    is empty, or one of the four IO numbers is negative, or [vb] is
    both a monopoly binding (auto source with the [m] flag) and an
    unlimited-quota binding (auto source with size 0). *)
Theorem C6_Validate_error_iff (vb : VolumeBinding) :
  Validate vb ≠ None ↔
    Destination vb = EmptyString ∨
    (ReadIOPS vb < 0 ∨ WriteIOPS vb < 0 ∨
     ReadBytes vb < 0 ∨ WriteBytes vb < 0)%Z ∨
    ((GoStrings.HasSuffix (Source vb) "AUTO" = true ∧
      GoStrings.Contains (Flags vb) "m" = true) ∧
     (GoStrings.HasSuffix (Source vb) "AUTO" = true ∧
      SizeInBytes vb = 0%Z)).
Proof.
  rewrite Validate_cases.
  destruct (String.eqb_spec (Destination vb) EmptyString) as [Hd | Hd].
  { split; [by left | done]. }
  destruct (RequireScheduleMonopoly vb && RequireScheduleUnlimitedQuota vb)
    eqn:Hm.
  { split; [intros _ | done]. right; right.
    unfold RequireScheduleMonopoly, RequireScheduleUnlimitedQuota,
      RequireSchedule, auto in Hm.
    rewrite !andb_true_iff, Z.eqb_eq in Hm. tauto. }
  destruct (ValidIOParameters vb) eqn:Hio.
  - split; [done |]. apply ValidIOParameters_spec in Hio.
    intros [? | [? | [[Hs Hf] [_ Hz]]]]; [done | lia |].
    unfold RequireScheduleMonopoly, RequireScheduleUnlimitedQuota,
      RequireSchedule, auto in Hm.
    rewrite Hs, Hf, Hz in Hm. done.
  - split; [intros _ | done]. right; left.
    destruct (decide (ReadIOPS vb < 0 ∨ WriteIOPS vb < 0 ∨
                      ReadBytes vb < 0 ∨ WriteBytes vb < 0)%Z) as [? | Hn];
      [done |].
    assert (ValidIOParameters vb = true); [|congruence].
    apply ValidIOParameters_spec. lia.
Qed.

(** ** Scenario S1 *)


(** C2 (as stated, refuted). The parse of [rawS1] does not fail
    validation: [NewVolumeBinding] returns the nil error. *)
Lemma C2_counterexample :
  fst (NewVolumeBinding rawS1) = Some vbS1 ∧
  ¬ (∃ e, snd (NewVolumeBinding rawS1) = Some e).
Proof. split; [by vm_compute |]. intros [e He]. by vm_compute in He. Qed.

(** C2 (amended). Parsing [rawS1] yields the eight fields of [vbS1]
    and validation succeeds: a binding is rejected as "monopoly must
    not be limited" exactly when it has a destination, an auto source,
    the [m] flag and size 0, whatever its IO quotas are. *)
Theorem C2_parse_S1 :
  NewVolumeBinding rawS1 = (Some vbS1, None) ∧
  ∀ vb, Validate vb = Some ErrMonopolyLimited ↔
        Destination vb ≠ EmptyString ∧ RequireScheduleMonopoly vb = true ∧
        SizeInBytes vb = 0%Z.
Proof.
  split; [by vm_compute |]. intros vb. rewrite Validate_cases.
  destruct (String.eqb_spec (Destination vb) EmptyString) as [Hd | Hd].
  { split; [done | tauto]. }
  assert (RequireScheduleMonopoly vb && RequireScheduleUnlimitedQuota vb = true
          ↔ RequireScheduleMonopoly vb = true ∧ SizeInBytes vb = 0%Z) as Hiff.
  { unfold RequireScheduleUnlimitedQuota, RequireScheduleMonopoly.
    rewrite !andb_true_iff, Z.eqb_eq. tauto. }
  destruct (RequireScheduleMonopoly vb && RequireScheduleUnlimitedQuota vb).
  - split; [intros _ | done]. split; [done |]. by apply Hiff.
  - split; [by destruct (ValidIOParameters vb) |].
    intros [_ H]. by apply Hiff in H.
Qed.

(** ** Emission *)

Section forms.
Implicit Types (vb : VolumeBinding) (f : string).

Lemma length_form2 vb :
  String.length (form2 vb) =
  (String.length (Source vb) + 1 + String.length (Destination vb))%nat.
Proof. unfold form2. rewrite !length_app_s. simpl. lia. Qed.

Lemma length_form4 vb f :
  String.length (form4 vb f) =
  (String.length (form2 vb) + 2 + String.length f +
   String.length (GoStrconv.FormatInt (SizeInBytes vb)))%nat.
Proof. unfold form4, form2. rewrite !length_app_s. simpl. lia. Qed.

Lemma length_form8 vb f :
  String.length (form4 vb f) < String.length (form8 vb f).
Proof. unfold form4, form8. rewrite !length_app_s. simpl. lia. Qed.

Lemma form2_ne_form4 vb f : form4 vb f ≠ form2 vb.
Proof. intros H%(f_equal String.length). rewrite length_form4 in H. lia. Qed.

Lemma form2_ne_form8 vb f : form8 vb f ≠ form2 vb.
Proof.
  intros H%(f_equal String.length).
  pose proof (length_form8 vb f). rewrite length_form4 in *. lia.
Qed.

Lemma form4_ne_form8 vb f : form8 vb f ≠ form4 vb f.
Proof.
  intros H%(f_equal String.length). pose proof (length_form8 vb f). lia.
Qed.
End forms.


Lemma bare_test (vb : VolumeBinding) :
  String.eqb (Flags vb) EmptyString && (SizeInBytes vb =? 0)%Z = true ↔ bare vb.
Proof. unfold bare. by rewrite andb_true_iff, String.eqb_eq, Z.eqb_eq. Qed.


(** C3 (as stated, refuted). A binding with a non-zero IO quota, empty
    flags and size 0 is emitted in the 2-field form, not in the
    8-field one. *)
Lemma C3_counterexample :
  anyIO vbQuotaOnly = true ∧
  ToString vbQuotaOnly false = "a:b" ∧
  ToString vbQuotaOnly false ≠
    form8 vbQuotaOnly (emitFlags (Flags vbQuotaOnly) false).
Proof. by vm_compute. Qed.

(** C3 (amended). [ToString] emits the 2-field form exactly when the
    flags are empty and the size is zero; otherwise the 8-field form
    exactly when one of the four IO quotas is non-zero, and the
    4-field form exactly when all four are zero. *)
Theorem C3_ToString_arity (vb : VolumeBinding) (normalize : bool) :
  let flags := emitFlags (Flags vb) normalize in
  (ToString vb normalize = form2 vb ↔ bare vb) ∧
  (ToString vb normalize = form8 vb flags ↔ ¬ bare vb ∧ anyIO vb = true) ∧
  (ToString vb normalize = form4 vb flags ↔ ¬ bare vb ∧ anyIO vb = false).
Proof.
  intros flags. unfold ToString. fold flags.
  pose proof (bare_test vb) as Hb.
  destruct (String.eqb (Flags vb) EmptyString && (SizeInBytes vb =? 0)%Z).
  - assert (bare vb) as Hbare by (by apply Hb).
    split; [done |].
    split; (split; [intros H | tauto]); symmetry in H.
    + by apply form2_ne_form8 in H.
    + by apply form2_ne_form4 in H.
  - assert (¬ bare vb) as Hbare by (intros ?%Hb; done).
    destruct (anyIO vb).
    + split; [split; [intros H | done]; by apply form2_ne_form8 in H |].
      split; [done |]. split; [intros H | intros [_ ?]; done].
      by apply form4_ne_form8 in H.
    + split; [split; [intros H | done]; by apply form2_ne_form4 in H |].
      split; [| done]. split; [intros H | intros [_ ?]; done].
      symmetry in H. by apply form4_ne_form8 in H.
Qed.

(** ** Parsing *)

Lemma ParseInt_range (s : string) (z : Z) :
  GoStrconv.ParseInt s = inr z → in_int64 z.
Proof.
  unfold GoStrconv.ParseInt, in_int64. intros H.
  repeat case_match; simplify_eq;
    match goal with
    | Hr : _ && _ = true |- _ =>
        apply andb_true_iff in Hr as [?%Z.leb_le ?%Z.leb_le]; done
    end.
Qed.

Lemma sortFlags_empty : sortFlags EmptyString = EmptyString.
Proof. reflexivity. Qed.

(** A binding with a fixed source, a destination and non-negative IO
    quotas is valid whatever its size. *)
Lemma Validate_hard (vb : VolumeBinding) :
  RequireSchedule vb = false → Destination vb ≠ EmptyString →
  ValidIOParameters vb = true → Validate vb = None.
Proof.
  intros Hs Hd Hio. rewrite Validate_cases.
  destruct (String.eqb_spec (Destination vb) EmptyString); [done |].
  unfold RequireScheduleMonopoly. by rewrite Hs, Hio.
Qed.


(** C10. A negative size is accepted: on a raw string of legal arity
    whose source does not end in [AUTO], whose destination is not
    empty and whose IO quotas are non-negative numbers,
    [NewVolumeBinding] returns the parsed binding and the nil error,
    whatever the sign of the size. *)
Theorem C10_negative_size_accepted (raw p0 p1 : string) (rest : list string) :
  GoStrings.Split raw ":" = p0 :: p1 :: rest →
  GoStrings.HasSuffix p0 auto = false →
  p1 ≠ EmptyString →
  match rest with
  | [] =>
      NewVolumeBinding raw = (Some (mkVolumeBinding p0 p1 EmptyString 0 0 0 0 0), None)
  | [p2] =>
      NewVolumeBinding raw =
        (Some (mkVolumeBinding p0 p1 (sortFlags p2) 0 0 0 0 0), None)
  | [p2; p3] =>
      ∀ size, GoStrconv.ParseInt p3 = inr size →
        NewVolumeBinding raw =
          (Some (mkVolumeBinding p0 p1 (sortFlags p2) size 0 0 0 0), None)
  | [p2; p3; p4; p5; p6; p7] =>
      ∀ size r w rb wb,
        GoStrconv.ParseInt p3 = inr size →
        GoStrconv.ParseInt p4 = inr r → GoStrconv.ParseInt p5 = inr w →
        GoStrconv.ParseInt p6 = inr rb → GoStrconv.ParseInt p7 = inr wb →
        (0 <= r ∧ 0 <= w ∧ 0 <= rb ∧ 0 <= wb)%Z →
        NewVolumeBinding raw =
          (Some (mkVolumeBinding p0 p1 (sortFlags p2) size r w rb wb), None)
  | _ => True
  end.
Proof.
  intros Hsplit Hsrc Hdst. unfold NewVolumeBinding. rewrite Hsplit.
  destruct rest as [|p2 [|p3 [|p4 [|p5 [|p6 [|p7 [|p8 tl]]]]]]]; try exact I.
  - simpl. rewrite Validate_hard; done.
  - simpl. rewrite Validate_hard; done.
  - intros size Hsize. simpl. unfold case4, parseField. rewrite Hsize. simpl.
    rewrite Validate_hard; done.
  - intros size r w rb wb Hsize Hr Hw Hrb Hwb Hio. simpl.
    unfold case8, case4, parseField. rewrite Hsize, Hr, Hw, Hrb, Hwb. simpl.
    rewrite Validate_hard; [done.. |].
    apply ValidIOParameters_spec. simpl. lia.
Qed.

(** The example of C10: ["src:/data:rw:-100"] parses and validates. *)
Lemma C10_witness :
  NewVolumeBinding "src:/data:rw:-100" =
    (Some (mkVolumeBinding "src" "/data" "rw" (-100) 0 0 0 0), None).
Proof.
  exact (C10_negative_size_accepted "src:/data:rw:-100" "src" "/data"
           ["rw"; "-100"] eq_refl eq_refl ltac:(discriminate)
           (-100)%Z eq_refl).
Defined.

(** C5. [NewVolumeBinding] has a result only at arity 2, 3, 4 or 8:
    at any other arity it returns the nil pointer and the
    invalid-raw-volume error; at arity 4 or 8 a numeric field (index 3
    and up) that is not a signed 64-bit numeral makes it return the
    nil pointer and the conversion error; a nil error comes with a
    binding; and the flag characters of a returned binding are the
    characters of the flag field (field 2, none at arity 2), each as
    often as there, in ascending order. *)
Theorem C5_NewVolumeBinding_arity (raw : string) :
  let parts := GoStrings.Split raw ":" in
  (¬ legalArity (length parts) →
     NewVolumeBinding raw = (None, Some (ErrInvalidRawVolume raw))) ∧
  (∀ i s e, length parts = 4 ∨ length parts = 8 → 3 ≤ i →
     parts !! i = Some s → GoStrconv.ParseInt s = inl e →
     ∃ e', NewVolumeBinding raw = (None, Some (ErrParseInt e'))) ∧
  (snd (NewVolumeBinding raw) = None → is_Some (fst (NewVolumeBinding raw))) ∧
  (∀ vb, fst (NewVolumeBinding raw) = Some vb →
     legalArity (length parts) ∧
     (∀ i s, 3 ≤ i → parts !! i = Some s →
        ∃ z, GoStrconv.ParseInt s = inr z ∧ in_int64 z) ∧
     Sorted String.le (GoUtf8.explode (Flags vb)) ∧
     GoUtf8.explode (Flags vb) ≡ₚ
       GoUtf8.explode (default EmptyString (parts !! 2))).
Proof.
  intros parts. unfold NewVolumeBinding. fold parts.
  assert (∀ i s, 3 ≤ i → parts !! i = Some s →
            (∃ z, GoStrconv.ParseInt s = inr z ∧ in_int64 z) ∨
            (∃ e, GoStrconv.ParseInt s = inl e)) as Hfield.
  { intros i s _ _. destruct (GoStrconv.ParseInt s) as [e | z] eqn:Hp;
      [right; eauto | left; eauto using ParseInt_range]. }
  unfold legalArity.
  destruct parts as [|p0 [|p1 [|p2 [|p3 [|p4 [|p5 [|p6 [|p7 [|p8 tl]]]]]]]]];
    simpl length; simpl parseParts.
  1-2, 6-8, 10: (split; [intros; reflexivity |]);
    (split; [intros ? ? ? [? | ?]; simpl in *; lia |]);
    (split; [simpl; done |]); intros vb Hvb; simpl in Hvb; done.
  - (* arity 2 *)
    split; [intros H; exfalso; apply H; auto |].
    split; [intros ? ? ? [? | ?]; lia |].
    split; [simpl; eauto |].
    intros vb [= <-]. split; [auto |]. split;
      [| split; [apply sortFlags_sorted | apply explode_sortFlags_Permutation]].
    intros [|[|[|i]]] s Hi Hs; simpl in Hs; (lia || done).
  - (* arity 3 *)
    split; [intros H; exfalso; apply H; auto |].
    split; [intros ? ? ? [? | ?]; lia |].
    split; [simpl; eauto |].
    intros vb [= <-]. split; [auto |]. split;
      [| split; [apply sortFlags_sorted | apply explode_sortFlags_Permutation]].
    intros [|[|[|i]]] s Hi Hs; simpl in Hs; (lia || done).
  - (* arity 4 *)
    split; [intros H; exfalso; apply H; auto |].
    unfold case4, parseField, bindE.
    destruct (GoStrconv.ParseInt p3) as [e3 | z3] eqn:H3.
    + split; [eauto |]. split; [done |]. done.
    + split.
      { intros [|[|[|[|i]]]] s e _ Hi Hs Hp; simpl in Hs; simplify_eq;
          (lia || congruence). }
      split; [simpl; eauto |].
      intros vb [= <-]. split; [auto |]. split;
      [| split; [apply sortFlags_sorted | apply explode_sortFlags_Permutation]].
      intros [|[|[|[|i]]]] s Hi Hs; simpl in Hs; simplify_eq; try lia.
      eauto using ParseInt_range.
  - (* arity 8 *)
    split; [intros H; exfalso; apply H; auto 10 |].
    unfold case8, case4, parseField, bindE.
    destruct (GoStrconv.ParseInt p4) as [e4 | z4] eqn:H4;
      [split; [eauto |]; split; done |].
    destruct (GoStrconv.ParseInt p5) as [e5 | z5] eqn:H5;
      [split; [eauto |]; split; done |].
    destruct (GoStrconv.ParseInt p6) as [e6 | z6] eqn:H6;
      [split; [eauto |]; split; done |].
    destruct (GoStrconv.ParseInt p7) as [e7 | z7] eqn:H7;
      [split; [eauto |]; split; done |].
    destruct (GoStrconv.ParseInt p3) as [e3 | z3] eqn:H3;
      [split; [eauto |]; split; done |].
    split.
    { intros [|[|[|[|[|[|[|[|i]]]]]]]] s e _ Hi Hs Hp; simpl in Hs;
        simplify_eq; (lia || congruence). }
    split; [simpl; eauto |].
    intros vb [= <-]. split; [auto 10 |]. split;
      [| split; [apply sortFlags_sorted | apply explode_sortFlags_Permutation]].
    intros [|[|[|[|[|[|[|[|i]]]]]]]] s Hi Hs; simpl in Hs; simplify_eq;
      try lia; eauto using ParseInt_range.
Qed.

(** C5 on ["a:/b:rw:1k"]: four fields, the size is not a numeral, and
    the conversion error comes back with the nil pointer. And on
    ["a:/b:wr"]: the binding returned has the flags [rw], the
    characters of [wr] in ascending order. *)
Lemma C5_witness :
  (∃ e', NewVolumeBinding "a:/b:rw:1k" = (None, Some (ErrParseInt e'))) ∧
  fst (NewVolumeBinding "a:/b:wr") =
    Some (mkVolumeBinding "a" "/b" "rw" 0 0 0 0 0) ∧
  Sorted String.le (GoUtf8.explode "rw") ∧
  GoUtf8.explode "rw" ≡ₚ GoUtf8.explode "wr".
Proof.
  split; [| split; [reflexivity |]].
  - exact (proj1 (proj2 (C5_NewVolumeBinding_arity "a:/b:rw:1k"))
             3 "1k" GoStrconv.ErrSyntax (or_introl eq_refl) (le_n 3)
             eq_refl eq_refl).
  - exact (proj2 (proj2 (proj2 (proj2 (proj2
             (C5_NewVolumeBinding_arity "a:/b:wr")))
             (mkVolumeBinding "a" "/b" "rw" 0 0 0 0 0) eq_refl))).
Defined.

(** ** Round trip *)


Lemma Split_colon_field (a rest : string) :
  noColon a → GoStrings.Split (a +:+ ":" +:+ rest) ":" = a :: GoStrings.Split rest ":".
Proof. intros Ha. by apply (Split_field a rest ":"). Qed.

Lemma emitFlags_noColon (flags : string) (normalize : bool) :
  noColon flags → noColon (emitFlags flags normalize).
Proof.
  unfold noColon, emitFlags. intros Hf.
  assert (GoStrings.Contains
            (if normalize then GoStrings.ReplaceAll flags "m" EmptyString else flags) ":" = false) as Hn.
  { destruct normalize; [by apply ReplaceAll_Contains | done]. }
  destruct (GoStrings.Contains _ "o"); [|done].
  repeat apply ReplaceAll_Contains; done.
Qed.

Lemma anyIO_false (vb : VolumeBinding) :
  anyIO vb = false ↔
  ReadIOPS vb = 0%Z ∧ WriteIOPS vb = 0%Z ∧ ReadBytes vb = 0%Z ∧ WriteBytes vb = 0%Z.
Proof.
  unfold anyIO. rewrite !orb_false_iff, !negb_false_iff, !Z.eqb_eq. tauto.
Qed.

#[local] Arguments Validate : simpl never.
#[local] Arguments sortFlags : simpl never.
#[local] Arguments emitFlags : simpl never.
#[local] Arguments GoStrconv.FormatInt : simpl never.
#[local] Arguments GoStrconv.ParseInt : simpl never.

(** Flags in ascending order and without the letter [o] are a fixed
    point of emission followed by sorting. *)
Lemma canonical_flags_fixed (flags : string) :
  Sorted String.le (GoUtf8.explode flags) →
  GoStrings.Contains flags "o" = false →
  sortFlags (emitFlags flags false) = flags.
Proof.
  intros Hs Ho. unfold emitFlags. rewrite Ho. by apply sortFlags_fixed.
Qed.


(** C1 (as stated, refuted). Four valid bindings that do not survive
    emission and parsing: flags out of order come back sorted; the
    [o] flag comes back expanded; a colon in the source changes the
    arity; IO quotas with empty flags and size 0 are not emitted. *)
Lemma C1_counterexample :
  (Validate vbUnsorted = None ∧
   NewVolumeBinding (ToString vbUnsorted false) =
     (Some (mkVolumeBinding "/h" "/c" "rw" 0 0 0 0 0), None)) ∧
  (Validate vbExclusive = None ∧
   NewVolumeBinding (ToString vbExclusive false) =
     (Some (mkVolumeBinding "/h" "/c" "oorw" 0 0 0 0 0), None)) ∧
  (Validate vbColon = None ∧
   NewVolumeBinding (ToString vbColon false) =
     (Some (mkVolumeBinding "h" "x" "/c" 0 0 0 0 0), None)) ∧
  (Validate vbQuotaOnly = None ∧
   NewVolumeBinding (ToString vbQuotaOnly false) =
     (Some (mkVolumeBinding "a" "b" EmptyString 0 0 0 0 0), None)) ∧
  ¬ (∀ vb, wf_binding vb → Validate vb = None →
           NewVolumeBinding (ToString vb false) = (Some vb, None)).
Proof.
  repeat (split; [by vm_compute |]).
  intros H. specialize (H vbUnsorted).
  assert (wf_binding vbUnsorted) as Hwf by (by vm_compute).
  specialize (H Hwf eq_refl). by vm_compute in H.
Qed.

(** C1 (amended). For every binding [vb] with [int64] fields that
    passes [Validate], whose source, destination and flags contain no
    colon, whose flags are what sorting the characters of their
    emitted form gives back, and whose IO quotas are all zero when its
    flags are empty and its size is zero, parsing the non-normalized
    emission succeeds and returns [vb] itself. *)
Theorem C1_parse_emit_roundtrip (vb : VolumeBinding) :
  wf_binding vb →
  Validate vb = None →
  noColon (Source vb) → noColon (Destination vb) → noColon (Flags vb) →
  sortFlags (emitFlags (Flags vb) false) = Flags vb →
  (bare vb → anyIO vb = false) →
  NewVolumeBinding (ToString vb false) = (Some vb, None).
Proof.
  intros (Hsz & Hr & Hw & Hrb & Hwb) Hval Hsrc Hdst Hfl Hsort Hbare.
  pose proof (emitFlags_noColon _ false Hfl) as Hef.
  pose proof FormatInt_no_colon as Hnum.
  destruct vb as [src dst flags size r w rb wb]; simpl in *.
  unfold ToString, NewVolumeBinding; simpl Flags; simpl SizeInBytes.
  pose proof (bare_test (mkVolumeBinding src dst flags size r w rb wb)) as Hb.
  simpl in Hb.
  destruct (String.eqb flags EmptyString && (size =? 0)%Z).
  - pose proof (proj1 Hb eq_refl) as Hb'.
    pose proof Hb' as [Hf0 Hs0]; simpl in Hf0, Hs0.
    apply Hbare, anyIO_false in Hb' as (? & ? & ? & ?).
    simpl in *; subst. unfold form2; simpl Source; simpl Destination.
    rewrite Split_colon_field, Split_last by done.
    simpl. by rewrite sortFlags_empty, Hval.
  - destruct (anyIO _) eqn:Hio.
    + unfold form8; simpl.
      rewrite !Split_colon_field, Split_last by (done || apply Hnum).
      simpl. unfold case8, case4, parseField.
      rewrite !ParseInt_FormatInt by done. simpl.
      by rewrite Hsort, Hval.
    + apply anyIO_false in Hio as (? & ? & ? & ?); simpl in *; subst.
      unfold form4; simpl.
      rewrite !Split_colon_field, Split_last by (done || apply Hnum).
      simpl. unfold case4, parseField.
      rewrite !ParseInt_FormatInt by done. simpl.
      by rewrite Hsort, Hval.
Qed.

(** Sorted flags without the letter [o] are left alone by emission
    and parsing; C1 applies to them. *)
Lemma C1_witness :
  NewVolumeBinding (ToString vbS1 false) = (Some vbS1, None).
Proof.
  apply C1_parse_emit_roundtrip; try reflexivity.
  - by vm_compute.
  - intros [H _]. discriminate H.
Defined.

(** ** Merging *)


Section int64_facts.
Local Open Scope Z_scope.

Lemma wrap64_range (z : Z) : in_int64 (wrap64 z).
Proof.
  unfold in_int64, wrap64, int64_min, int64_max.
  pose proof (Z.mod_pos_bound (z + 2 ^ 63) (2 ^ 64)). lia.
Qed.

Lemma wrap64_id (z : Z) : in_int64 z → wrap64 z = z.
Proof.
  unfold in_int64, wrap64, int64_min, int64_max. intros Hz.
  rewrite Z.mod_small; lia.
Qed.

Lemma wrap64_congr (a b : Z) :
  a mod 2 ^ 64 = b mod 2 ^ 64 → wrap64 a = wrap64 b.
Proof.
  unfold wrap64. intros H.
  rewrite (Z.add_mod a), (Z.add_mod b), H by lia. done.
Qed.

Lemma wrap64_mod (a : Z) : wrap64 a mod 2 ^ 64 = a mod 2 ^ 64.
Proof.
  unfold wrap64.
  rewrite <- (Zminus_mod_idemp_l ((a + 2 ^ 63) mod 2 ^ 64)).
  rewrite Z.mod_mod by lia. rewrite Zminus_mod_idemp_l.
  f_equal. lia.
Qed.

Lemma wrap64_add_l (a b : Z) : wrap64 (wrap64 a + b) = wrap64 (a + b).
Proof.
  apply wrap64_congr.
  rewrite Z.add_mod, wrap64_mod, <- Z.add_mod by lia. done.
Qed.

Lemma wrap64_add_r (a b : Z) : wrap64 (a + wrap64 b) = wrap64 (a + b).
Proof. rewrite (Z.add_comm a), wrap64_add_l. f_equal. lia. Qed.

Lemma wrap64_sub_r (a b : Z) : wrap64 (a - wrap64 b) = wrap64 (a - b).
Proof.
  apply wrap64_congr.
  rewrite Zminus_mod, wrap64_mod, <- Zminus_mod. done.
Qed.
End int64_facts.

Section sums.
Implicit Types (f : VolumeBinding → Z) (l : list VolumeBinding).

Lemma sumZ_app f l1 l2 : (sumZ f (l1 ++ l2) = sumZ f l1 + sumZ f l2)%Z.
Proof. induction l1 as [|x l1 IH]; simpl; [done | rewrite IH; lia]. Qed.

(** A sum splits along any decidable test. *)
Lemma sumZ_split f (P : VolumeBinding → Prop) `{∀ x, Decision (P x)} l :
  (sumZ f l = sumZ f (filter P l) + sumZ f (filter (λ x, ¬ P x) l))%Z.
Proof.
  induction l as [|x l IH]; [done |].
  rewrite !filter_cons. simpl. destruct (decide (P x)) as [Hp | Hp].
  - rewrite decide_False by tauto. simpl. lia.
  - rewrite decide_True by done. simpl. lia.
Qed.

Lemma sumZ_Permutation f l1 l2 : l1 ≡ₚ l2 → sumZ f l1 = sumZ f l2.
Proof. induction 1; simpl; lia. Qed.

Lemma TotalSize_from (a : Z) l :
  in_int64 a →
  foldl (λ total vb, wrap64 (total + SizeInBytes vb)) a l =
    wrap64 (a + sumZ SizeInBytes l).
Proof.
  revert a. induction l as [|x l IH]; intros a Ha; simpl.
  - rewrite Z.add_0_r. by rewrite wrap64_id.
  - rewrite IH by apply wrap64_range.
    rewrite wrap64_add_l. f_equal. lia.
Qed.

(** [TotalSize] is the [int64] sum of the sizes. *)
Lemma TotalSize_sum64 l : TotalSize l = sum64 SizeInBytes l.
Proof. unfold TotalSize. by rewrite TotalSize_from. Qed.

Lemma sumZ_abs_filter f (P : VolumeBinding → Prop) `{∀ x, Decision (P x)} l :
  (Z.abs (sumZ f (filter P l)) <= sumZ (λ vb, Z.abs (f vb)) l)%Z.
Proof.
  induction l as [|x l IH]; [done |].
  rewrite filter_cons. destruct (decide (P x)); simpl; lia.
Qed.

(** Without overflow the [int64] sum of a part of the inputs is the
    exact sum. *)
Lemma sum64_exact f (P : VolumeBinding → Prop) `{∀ x, Decision (P x)} l :
  (sumZ (λ vb, Z.abs (f vb)) l <= int64_max)%Z →
  sum64 f (filter P l) = sumZ f (filter P l).
Proof.
  intros Hb. apply wrap64_id. pose proof (sumZ_abs_filter f P l).
  unfold in_int64, int64_min, int64_max in *. lia.
Qed.
End sums.


Section merge_facts.
Implicit Types (m : gmap (string * string * string) Para).
Implicit Types (k : string * string * string) (l : list VolumeBinding).

Lemma group_cons k vb l :
  group k (vb :: l) = if decide (keyOf vb = k) then vb :: group k l else group k l.
Proof. unfold group. by rewrite filter_cons. Qed.

Lemma mergeStep_lookup m vb k :
  mergeStep m vb !! k =
    if decide (keyOf vb = k)
    then Some (match m !! k with
               | None => paraOf vb
               | Some p => addPara p vb
               end)
    else m !! k.
Proof.
  unfold mergeStep. destruct (decide (keyOf vb = k)) as [<- | Hne].
  - destruct (m !! keyOf vb); by rewrite lookup_insert_eq.
  - destruct (m !! keyOf vb); by rewrite lookup_insert_ne.
Qed.

Lemma addPara_wf p vb : para_wf (addPara p vb).
Proof. repeat split; apply wrap64_range. Qed.

Lemma accPara_nil p : para_wf p → accPara p [] = p.
Proof.
  intros (? & ? & ? & ? & ?). destruct p; unfold accPara; simpl in *.
  rewrite !Z.add_0_r, !wrap64_id; done.
Qed.

Lemma accPara_cons p vb g : accPara (addPara p vb) g = accPara p (vb :: g).
Proof.
  unfold accPara, addPara; simpl.
  rewrite !wrap64_add_l, !Z.add_assoc. done.
Qed.

Lemma fold_lookup_Some l m k p :
  m !! k = Some p → para_wf p →
  foldl mergeStep m l !! k = Some (accPara p (group k l)).
Proof.
  revert m p. induction l as [|vb l IH]; intros m p Hm Hp; simpl.
  - by rewrite accPara_nil.
  - rewrite group_cons.
    pose proof (mergeStep_lookup m vb k) as Hstep. rewrite Hm in Hstep.
    destruct (decide (keyOf vb = k)).
    + rewrite (IH _ _ Hstep (addPara_wf _ _)). by rewrite accPara_cons.
    + by apply IH.
Qed.

Lemma accPara_paraOf vb g :
  wf_binding vb → accPara (paraOf vb) g = paraSums (vb :: g).
Proof. done. Qed.

Lemma fold_lookup_None l m k :
  m !! k = None → Forall wf_binding l →
  foldl mergeStep m l !! k = groupPara k l.
Proof.
  unfold groupPara.
  revert m. induction l as [|vb l IH]; intros m Hm Hwf; simpl; [done |].
  apply Forall_cons in Hwf as [Hvb Hwf].
  rewrite group_cons.
  pose proof (mergeStep_lookup m vb k) as Hstep. rewrite Hm in Hstep.
  destruct (decide (keyOf vb = k)).
  - rewrite (fold_lookup_Some _ _ _ _ Hstep).
    + by rewrite accPara_paraOf.
    + exact Hvb.
  - by apply IH.
Qed.

Lemma foldl_concat {A B} (f : A → B → A) (a : A) (ls : list (list B)) :
  foldl (foldl f) a ls = foldl f a (concat ls).
Proof.
  revert a. induction ls as [|x ls IH]; intros a; simpl; [done |].
  by rewrite foldl_app, IH.
Qed.

(** The map built by the first loop of [MergeVolumeBindings]. *)
Lemma sizeMap_lookup (ls : list (list VolumeBinding)) k :
  Forall wf_binding (concat ls) →
  foldl (foldl mergeStep) ∅ ls !! k = groupPara k (concat ls).
Proof. intros Hwf. rewrite foldl_concat. by apply fold_lookup_None. Qed.

Lemma emitGroup_Some k p vb :
  emitGroup (k, p) = Some vb ↔
  (0 <= p_size p)%Z ∧
  vb = mkVolumeBinding k.1.1 k.1.2 k.2 (p_size p) (p_riops p) (p_wiops p)
         (p_rbytes p) (p_wbytes p).
Proof.
  destruct k as [[src dst] flags]; simpl.
  destruct (Z.ltb_spec (p_size p) 0); split.
  - done.
  - intros [? _]. lia.
  - intros [= <-]. by split.
  - by intros [_ ->].
Qed.

Lemma emitGroup_key k p vb : emitGroup (k, p) = Some vb → keyOf vb = k.
Proof.
  intros [_ ->]%emitGroup_Some. by destruct k as [[? ?] ?].
Qed.

Lemma emitted_keys_sublist (kl : list ((string * string * string) * Para)) :
  keyOf <$> omap emitGroup kl `sublist_of` kl.*1.
Proof.
  induction kl as [|[k p] kl IH]; [constructor |].
  change (omap emitGroup ((k, p) :: kl)) with
    (match emitGroup (k, p) with
     | Some vb => vb :: omap emitGroup kl
     | None => omap emitGroup kl
     end).
  rewrite fmap_cons. change ((k, p).1) with k.
  destruct (emitGroup (k, p)) as [vb |] eqn:He.
  - rewrite fmap_cons, (emitGroup_key _ _ _ He). by constructor.
  - by constructor.
Qed.
End merge_facts.



Lemma wf_binding_small (src dst flags : string) (size : Z) :
  (- 1000 <= size <= 1000)%Z →
  wf_binding (mkVolumeBinding src dst flags size 0 0 0 0).
Proof. unfold wf_binding, in_int64, int64_min, int64_max. simpl. lia. Qed.



Section regroup.
Implicit Types (k : string * string * string) (l inputs : list VolumeBinding).

Lemma filter_iff_in {A} (P Q : A → Prop) `{!∀ x, Decision (P x)}
    `{!∀ x, Decision (Q x)} (l : list A) :
  (∀ x, x ∈ l → P x ↔ Q x) → filter P l = filter Q l.
Proof.
  induction l as [|x l IH]; intros Hpq; [done |].
  rewrite !filter_cons.
  rewrite IH by (intros y Hy; apply Hpq; by right).
  destruct (decide (P x)) as [Hp | Hp], (decide (Q x)) as [Hq | Hq]; try done.
  - apply Hpq in Hp; [done | by left].
  - apply Hpq in Hq; [done | by left].
Qed.

Lemma filter_none {A} (P : A → Prop) `{!∀ x, Decision (P x)} (l : list A) :
  (∀ x, ¬ P x) → filter P l = [].
Proof.
  intros Hn. induction l as [|x l IH]; [done |].
  rewrite filter_cons, IH. by rewrite decide_False.
Qed.

(** Taking a group out does not touch the other groups. *)
Lemma group_remove k k' l :
  k' ≠ k → group k' (filter (λ vb, keyOf vb ≠ k) l) = group k' l.
Proof.
  intros Hne. unfold group. apply list_filter_filter_l.
  intros vb ->. done.
Qed.

Lemma kept_remove k k' inputs :
  k' ≠ k → kept (filter (λ vb, keyOf vb ≠ k) inputs) k' ↔ kept inputs k'.
Proof. intros Hne. unfold kept. by rewrite group_remove. Qed.

Lemma sum64_add_congr f (a : Z) l1 l2 :
  sum64 f l1 = sum64 f l2 → wrap64 (a + sumZ f l1) = wrap64 (a + sumZ f l2).
Proof.
  unfold sum64. intros Heq.
  by rewrite <- (wrap64_add_r a (sumZ f l1)), Heq, wrap64_add_r.
Qed.

(** The kept bindings of one group. *)
Lemma filter_kept_group k inputs :
  filter (λ vb, keyOf vb = k) (filter (λ vb, kept inputs (keyOf vb)) inputs) =
    if decide (kept inputs k) then group k inputs else [].
Proof.
  rewrite list_filter_filter. destruct (decide (kept inputs k)) as [Hk | Hk].
  - unfold group. apply list_filter_iff. intros vb. split; [tauto |].
    intros ->. done.
  - apply filter_none. intros vb [-> ?]. done.
Qed.

(** The kept bindings of the other groups. *)
Lemma filter_kept_others k inputs :
  filter (λ vb, ¬ keyOf vb = k)
    (filter (λ vb, kept inputs (keyOf vb)) inputs) =
  filter (λ vb, kept (filter (λ vb, keyOf vb ≠ k) inputs) (keyOf vb))
    (filter (λ vb, keyOf vb ≠ k) inputs).
Proof.
  rewrite !list_filter_filter. apply list_filter_iff. intros vb.
  split.
  - intros [Hne Hk]. split; [|done]. by apply kept_remove.
  - intros [Hk Hne]. split; [done |]. by apply kept_remove in Hk.
Qed.

(** The sizes emitted for the entries of [sizeMap] add up to the
    sizes of the inputs whose group is kept. *)
Lemma regroup (kl : list ((string * string * string) * Para)) inputs :
  NoDup kl.*1 →
  (∀ k p, (k, p) ∈ kl → groupPara k inputs = Some p) →
  (∀ vb, vb ∈ inputs → keyOf vb ∈ kl.*1) →
  sum64 SizeInBytes (omap emitGroup kl) =
    sum64 SizeInBytes (filter (λ vb, kept inputs (keyOf vb)) inputs).
Proof.
  revert inputs. induction kl as [|[k p] kl IH]; intros inputs Hnd Hval Hdom.
  - destruct inputs as [|vb inputs]; [done |].
    specialize (Hdom vb ltac:(by left)). by apply elem_of_nil in Hdom.
  - apply NoDup_cons in Hnd as [Hk Hnd].
    set (inputs' := filter (λ vb, keyOf vb ≠ k) inputs).
    assert (sum64 SizeInBytes (omap emitGroup kl) =
            sum64 SizeInBytes (filter (λ vb, kept inputs' (keyOf vb)) inputs'))
      as IH'.
    { apply IH; [done | |].
      - intros k' p' Hin.
        assert (k' ≠ k) as Hne.
        { intros ->. apply Hk. apply list_elem_of_fmap. by exists (k, p'). }
        unfold groupPara, inputs'. rewrite group_remove by done.
        apply Hval. by right.
      - intros vb [Hne Hin]%list_elem_of_filter.
        specialize (Hdom vb Hin). apply elem_of_cons in Hdom as [? | ?]; done. }
    pose proof (Hval k p ltac:(by left)) as Hp. unfold groupPara in Hp.
    unfold sum64 at 2.
    rewrite (sumZ_split SizeInBytes (λ vb, keyOf vb = k)
               (filter (λ vb, kept inputs (keyOf vb)) inputs)).
    rewrite filter_kept_group, filter_kept_others. fold inputs'.
    change (omap emitGroup ((k, p) :: kl)) with
      (match emitGroup (k, p) with
       | Some vb => vb :: omap emitGroup kl
       | None => omap emitGroup kl
       end).
    destruct (group k inputs) as [|x g] eqn:Hg; [done |].
    injection Hp as <-.
    destruct (decide (kept inputs k)) as [Hkept | Hkept];
      unfold kept in Hkept; rewrite Hg in Hkept.
    + rewrite (proj2 (emitGroup_Some k (paraSums (x :: g)) _)
                 (conj Hkept eq_refl)).
      unfold sum64 at 1. simpl sumZ at 1.
      change (sum64 SizeInBytes (x :: g)) with
        (wrap64 (sumZ SizeInBytes (x :: g))).
      rewrite wrap64_add_l. by apply sum64_add_congr.
    + destruct (emitGroup (k, paraSums (x :: g))) as [vb |] eqn:He.
      { apply emitGroup_Some in He as [? _]. done. }
      simpl sumZ at 2. rewrite Z.add_0_l. exact IH'.
Qed.
End regroup.

(** C7. The [TotalSize] of the result of [MergeVolumeBindings] is the
    sum of [SizeInBytes] over all input bindings minus the
    contributions of the groups whose summed size is negative, that
    is, the sum over the bindings of the kept groups. The sums are
    [int64] sums; when the absolute values of the sizes add up to an
    [int64], the total is the exact sum over the groups whose exact
    sum is not negative. *)
Theorem C7_TotalSize_merge (vbs1 : list VolumeBinding)
    (vbs2 : list (list VolumeBinding)) :
  let inputs := concat (vbs2 ++ [vbs1]) in
  Forall wf_binding inputs →
  TotalSize (MergeVolumeBindings vbs1 vbs2) =
    wrap64 (sumZ SizeInBytes inputs -
            sumZ SizeInBytes (filter (λ vb, ¬ kept inputs (keyOf vb)) inputs)) ∧
  TotalSize (MergeVolumeBindings vbs1 vbs2) =
    sum64 SizeInBytes (filter (λ vb, kept inputs (keyOf vb)) inputs) ∧
  ((sumZ (λ vb, Z.abs (SizeInBytes vb)) inputs <= int64_max)%Z →
   TotalSize (MergeVolumeBindings vbs1 vbs2) =
     sumZ SizeInBytes
       (filter (λ vb, 0 <= sumZ SizeInBytes (group (keyOf vb) inputs))%Z
          inputs)).
Proof.
  intros inputs Hwf.
  assert (TotalSize (MergeVolumeBindings vbs1 vbs2) =
          sum64 SizeInBytes (filter (λ vb, kept inputs (keyOf vb)) inputs))
    as Htotal.
  { rewrite TotalSize_sum64. unfold MergeVolumeBindings. apply regroup.
    - apply NoDup_fst_map_to_list.
    - intros k p Hin%elem_of_map_to_list.
      by rewrite sizeMap_lookup in Hin.
    - intros vb Hin. apply list_elem_of_fmap.
      assert (is_Some (groupPara (keyOf vb) inputs)) as [p Hp].
      { unfold groupPara.
        assert (vb ∈ group (keyOf vb) inputs) as Hg
          by (by apply list_elem_of_filter).
        destruct (group (keyOf vb) inputs); [by apply elem_of_nil in Hg | eauto]. }
      exists (keyOf vb, p). split; [done |].
      apply elem_of_map_to_list. by rewrite sizeMap_lookup. }
  split; [| split; [done |]].
  - rewrite Htotal. unfold sum64. f_equal.
    rewrite (sumZ_split SizeInBytes (λ vb, kept inputs (keyOf vb)) inputs). lia.
  - intros Hb. rewrite Htotal, sum64_exact by done. f_equal.
    apply list_filter_iff. intros vb. unfold kept, group.
    by rewrite sum64_exact.
Qed.

(** Scenario S3 through C7: the merge of [+100] and [-100] on one key
    has total size 0. *)
Lemma C7_witness :
  TotalSize (MergeVolumeBindings [vbPlus100; vbMinus100] []) = 0%Z.
Proof.
  refine (eq_trans
            (proj1 (proj2 (C7_TotalSize_merge [vbPlus100; vbMinus100] [] _))) _).
  - repeat constructor; apply wf_binding_small; lia.
  - by vm_compute.
Defined.

(** ** The store *)

Section store_facts.
Implicit Types (st : Store) (vbs : Slice) (ps : list nat).

Lemma elems_Some st vbs ps :
  elems st vbs = Some ps →
  off vbs + len vbs ≤ length (cells st) ∧
  ps = take (len vbs) (drop (off vbs) (cells st)) ∧
  length ps = len vbs.
Proof.
  unfold elems. case_decide as Hb; [|done]. intros [= <-].
  split; [done |]. split; [done |].
  rewrite length_take, length_drop. lia.
Qed.

(** A store that only grew reads the old pointers as before. *)
Lemma mapM_deref_grow st st' ps (vals extra : list VolumeBinding) :
  objs st' = objs st ++ extra →
  mapM (deref st) ps = Some vals → mapM (deref st') ps = Some vals.
Proof.
  intros Hobjs. rewrite !mapM_Some. intros Hall.
  eapply Forall2_impl; [exact Hall |].
  intros p vb Hp. unfold deref in *. rewrite Hobjs.
  by apply lookup_app_l_Some.
Qed.

(** The objects allocated last are read back in order. *)
Lemma mapM_deref_fresh st (old new : list VolumeBinding) :
  objs st = old ++ new →
  mapM (deref st) (seq (length old) (length new)) = Some new.
Proof.
  intros Hobjs. apply mapM_Some, Forall2_same_length_lookup_2.
  - by rewrite length_seq.
  - intros i q vb [-> Hi]%lookup_seq Hvb. unfold deref.
    rewrite Hobjs, lookup_app_r by lia.
    by replace (length old + i - length old) with i by lia.
Qed.
End store_facts.

Section ApplyPlan_facts.
Context {VolumePlan VolumeMap : Type}.
Variable GetVolumeMap : VolumePlan → VolumeBinding → option VolumeMap.
Variable GetResourceID : VolumeMap → string.
Variable plan : VolumePlan.

#[local] Abbreviation planned' := (planned GetVolumeMap GetResourceID plan).

(** The loop appends one new object per input pointer, holding the
    planned copy, and writes nothing else. *)
Lemma ApplyPlan_loop_spec (ps : list nat) (st : Store) (res : list nat)
    (vals : list VolumeBinding) :
  mapM (deref st) ps = Some vals →
  ∃ st', ApplyPlan_loop GetVolumeMap GetResourceID plan st ps res =
           Some (st', res ++ seq (length (objs st)) (length ps)) ∧
         objs st' = objs st ++ (planned' <$> vals) ∧
         cells st' = cells st.
Proof.
  revert st res vals. induction ps as [|p ps IH]; intros st res vals Hvals.
  - apply mapM_Some in Hvals. apply Forall2_nil_inv_l in Hvals as ->.
    exists st. simpl. by rewrite !app_nil_r.
  - apply mapM_Some in Hvals.
    apply Forall2_cons_inv_l in Hvals as (tmp & vals' & Hp & Hvals & ->).
    apply mapM_Some in Hvals.
    cbn [ApplyPlan_loop]. rewrite Hp. cbn [mbind option_bind].
    assert (deref (mkStore (objs st ++ [tmp]) (cells st)) p = Some tmp) as ->.
    { unfold deref in *. simpl. by apply lookup_app_l_Some. }
    cbn [mbind option_bind].
    set (st2 := match GetVolumeMap plan tmp with
                | Some vmap => _
                | None => _
                end).
    assert (objs st2 = objs st ++ [planned' tmp] ∧ cells st2 = cells st)
      as [Hobjs Hcells].
    { unfold st2, planned. destruct (GetVolumeMap plan tmp) as [vmap |]; [|done].
      simpl. split; [|done].
      rewrite (insert_app_r_alt _ _ (length (objs st))) by lia.
      by rewrite Nat.sub_diag. }
    destruct (IH st2 (res ++ [length (objs st)]) vals') as (st' & Hloop & Ho & Hc).
    { by eapply mapM_deref_grow. }
    exists st'. rewrite Hloop, Ho, Hc, Hobjs, Hcells.
    rewrite length_app, <- !(assoc_L (++)). simpl.
    by rewrite Nat.add_1_r.
Qed.


End ApplyPlan_facts.



Section ToStringSlice_facts.
Implicit Types (st : Store) (vbs : Slice) (ps : list nat).

#[global] Instance keyLe_total st : Total (keyLe st).
Proof. intros p q. unfold keyLe. apply (total String.le). Qed.

Lemma sortSlice_Permutation st ps : sortSlice st ps ≡ₚ ps.
Proof. apply merge_sort_Permutation. Qed.

Lemma sortSlice_Sorted st ps : Sorted (keyLe st) (sortSlice st ps).
Proof. apply (Sorted_merge_sort _). Qed.

(** Writing [ps'] over a slice changes the cells of the slice only. *)
Lemma write_frame st vbs ps' :
  off vbs + len vbs ≤ length (cells st) → length ps' = len vbs →
  elems (write st vbs ps') vbs = Some ps' ∧
  objs (write st vbs ps') = objs st ∧
  length (cells (write st vbs ps')) = length (cells st) ∧
  take (off vbs) (cells (write st vbs ps')) = take (off vbs) (cells st) ∧
  drop (off vbs + len vbs) (cells (write st vbs ps')) =
    drop (off vbs + len vbs) (cells st).
Proof.
  intros Hb Hl. unfold write, elems. simpl.
  assert (length (take (off vbs) (cells st)) = off vbs) as Htake
    by (rewrite length_take; lia).
  assert (length (take (off vbs) (cells st) ++ ps' ++
                  drop (off vbs + len vbs) (cells st)) = length (cells st))
    as Hlen by (rewrite !length_app, length_drop; lia).
  split_and!; try done.
  - rewrite decide_True by lia.
    rewrite drop_app_length' by done.
    by rewrite take_app_length'.
  - by rewrite take_app_length'.
  - rewrite (assoc_L (++)).
    rewrite drop_app_length'; [done |]. rewrite length_app. lia.
Qed.


Lemma sortKey_objs st st' p : objs st' = objs st → sortKey st' p = sortKey st p.
Proof. intros H. unfold sortKey, deref. by rewrite H. Qed.

End ToStringSlice_facts.




(** * Further properties of the package *)

(** ** What [NewVolumeBinding] returns *)

Lemma in_int64_0 : in_int64 0.
Proof. unfold in_int64, int64_min, int64_max. lia. Qed.

Lemma Split_noColon (raw : string) : Forall noColon (GoStrings.Split raw ":").
Proof.
  induction raw as [|c r IH]; simpl.
  - by repeat constructor.
  - destruct (Ascii.eqb c ":") eqn:Hc.
    + by constructor.
    + destruct (GoStrings.Split r ":") as [|h t].
      * repeat constructor. unfold noColon. simpl. by rewrite Hc.
      * apply Forall_cons in IH as [Hh Ht]. constructor; [|done].
        unfold noColon in *. simpl. by rewrite Hc.
Qed.

Lemma Contains_Join (l : list string) (c : ascii) :
  GoStrings.Contains (GoStrings.Join l) c = true ↔
  ∃ s, s ∈ l ∧ GoStrings.Contains s c = true.
Proof.
  induction l as [|x l IH].
  - split; [done |]. intros (s & Hs & _). by apply elem_of_nil in Hs.
  - rewrite Join_cons, Contains_app, orb_true_iff, IH. split.
    + intros [Hx | (s & Hs & Hc)]; [exists x | exists s];
        (split; [|done]); [by left | by right].
    + intros (s & [-> | Hs]%elem_of_cons & Hc); [by left | right; eauto].
Qed.

(** Sorting the flags moves their bytes around and nothing else. *)
Lemma Contains_sortFlags (flags : string) (c : ascii) :
  GoStrings.Contains (sortFlags flags) c = GoStrings.Contains flags c.
Proof.
  apply Bool.eq_true_iff_eq.
  rewrite <- (Join_explode flags) at 2. unfold sortFlags, GoSort.Strings.
  rewrite !Contains_Join.
  by setoid_rewrite (merge_sort_Permutation String.le (GoUtf8.explode flags)).
Qed.

Lemma sortFlags_idem (flags : string) :
  sortFlags (sortFlags flags) = sortFlags flags.
Proof. apply sortFlags_fixed, sortFlags_sorted. Qed.

(** The results of the [switch]. *)
Lemma parseParts_inr (raw : string) (parts : list string) (vb : VolumeBinding) :
  parseParts raw parts = inr vb → Forall noColon parts →
  legalArity (length parts) ∧ wf_binding vb ∧
  noColon (Source vb) ∧ noColon (Destination vb) ∧ noColon (Flags vb).
Proof.
  intros Hp Hnc. unfold legalArity, wf_binding.
  destruct parts as [|p0 [|p1 [|p2 [|p3 [|p4 [|p5 [|p6 [|p7 [|p8 tl]]]]]]]]];
    simpl in Hp; try done;
    unfold case8, case4, parseField, bindE in Hp;
    repeat match type of Hp with
           | context [GoStrconv.ParseInt ?s] =>
               let H := fresh "Hn" in
               destruct (GoStrconv.ParseInt s) eqn:H; [done |];
               apply ParseInt_range in H
           end;
    injection Hp as <-; simpl;
    repeat match goal with
           | H : Forall _ (_ :: _) |- _ => apply Forall_cons in H as [? H]
           end;
    split_and!; auto 10 using in_int64_0; done.
Qed.

Lemma parseParts_inl (raw : string) (parts : list string) (e : error) :
  parseParts raw parts = inl e → parseError raw e.
Proof.
  intros Hp. unfold parseError.
  destruct parts as [|p0 [|p1 [|p2 [|p3 [|p4 [|p5 [|p6 [|p7 [|p8 tl]]]]]]]]];
    simpl in Hp; simplify_eq; auto;
    unfold case8, case4, parseField, bindE in Hp;
    repeat match type of Hp with
           | context [GoStrconv.ParseInt ?s] =>
               destruct (GoStrconv.ParseInt s); [simplify_eq; eauto |]
           end; done.
Qed.

(** A returned binding comes with the verdict of [Validate] on it, and
    is in the form the parser gives to every binding. *)
Lemma NewVolumeBinding_Some (raw : string) (vb : VolumeBinding) (e : option error) :
  NewVolumeBinding raw = (Some vb, e) →
  e = Validate vb ∧ legalArity (length (GoStrings.Split raw ":")) ∧
  wf_binding vb ∧
  noColon (Source vb) ∧ noColon (Destination vb) ∧ noColon (Flags vb) ∧
  sortFlags (Flags vb) = Flags vb.
Proof.
  unfold NewVolumeBinding.
  destruct (parseParts raw (GoStrings.Split raw ":")) as [e0 | vb0] eqn:Hp; [done |].
  intros [= <- <-].
  destruct (parseParts_inr _ _ _ Hp (Split_noColon raw))
    as (Hlegal & Hwf & Hs & Hd & Hf).
  split_and!; try done.
  - unfold noColon. simpl. by rewrite Contains_sortFlags.
  - simpl. apply sortFlags_idem.
Qed.

Lemma NewVolumeBinding_None (raw : string) (e : option error) :
  NewVolumeBinding raw = (None, e) → ∃ e', e = Some e' ∧ parseError raw e'.
Proof.
  unfold NewVolumeBinding.
  destruct (parseParts raw (GoStrings.Split raw ":")) as [e0 | vb0] eqn:Hp; [|done].
  intros [= <-]. eauto using parseParts_inl.
Qed.

Lemma Validate_not_parseError (raw : string) (vb : VolumeBinding) (e : error) :
  Validate vb = Some e → ¬ parseError raw e.
Proof.
  rewrite Validate_cases. intros Hv [-> | [n ->]];
    repeat case_match; done.
Qed.

Lemma emitFlags_empty (normalize : bool) : emitFlags EmptyString normalize = EmptyString.
Proof. by destruct normalize. Qed.

(** Parsing an emission: the arity printed is always a legal one, the
    numbers printed are read back, and the flags printed are sorted. *)
Lemma NewVolumeBinding_ToString (vb : VolumeBinding) (normalize : bool) :
  wf_binding vb →
  noColon (Source vb) → noColon (Destination vb) → noColon (Flags vb) →
  NewVolumeBinding (ToString vb normalize) =
    (Some (reparsed vb normalize), Validate (reparsed vb normalize)).
Proof.
  intros (Hsz & Hr & Hw & Hrb & Hwb) Hsrc Hdst Hfl.
  pose proof (emitFlags_noColon _ normalize Hfl) as Hef.
  pose proof FormatInt_no_colon as Hnum.
  destruct vb as [src dst flags size r w rb wb]; simpl in *.
  unfold ToString, NewVolumeBinding, reparsed; simpl.
  destruct (String.eqb flags EmptyString && (size =? 0)%Z) eqn:Hb.
  - apply andb_true_iff in Hb as [->%String.eqb_eq ->%Z.eqb_eq].
    unfold form2; simpl.
    rewrite Split_colon_field, Split_last by done.
    simpl. by rewrite emitFlags_empty.
  - destruct (anyIO _) eqn:Hio.
    + unfold form8; simpl.
      rewrite !Split_colon_field, Split_last by (done || apply Hnum).
      simpl. unfold case8, case4, parseField.
      by rewrite !ParseInt_FormatInt by done.
    + apply anyIO_false in Hio as (? & ? & ? & ?); simpl in *; subst.
      unfold form4; simpl.
      rewrite !Split_colon_field, Split_last by (done || apply Hnum).
      simpl. unfold case4, parseField.
      by rewrite !ParseInt_FormatInt by done.
Qed.

(** Emission and parsing give a canonical binding back. *)
Lemma reparsed_canonical (vb : VolumeBinding) :
  canonical vb → reparsed vb false = vb.
Proof.
  intros (_ & _ & _ & _ & Hsort & Hbare). unfold reparsed. rewrite Hsort.
  pose proof (bare_test vb) as Hb.
  destruct (String.eqb (Flags vb) EmptyString && (SizeInBytes vb =? 0)%Z).
  - apply proj1 in Hb. specialize (Hb eq_refl).
    apply Hbare, anyIO_false in Hb as (? & ? & ? & ?).
    destruct vb; simpl in *; by subst.
  - by destruct vb.
Qed.

(** X1. [NewVolumeBinding] returns the nil pointer exactly with an
    error of the parse itself (arity or number). Otherwise the error
    is the verdict of [Validate] on the binding returned, never a
    parse error; the binding has [int64] numbers, no colon in its
    source, destination and flags, and flags that sorting leaves
    alone. *)
Theorem X1_NewVolumeBinding_outcome (raw : string) :
  match NewVolumeBinding raw with
  | (None, e) => ∃ e', e = Some e' ∧ parseError raw e'
  | (Some vb, e) =>
      e = Validate vb ∧ (∀ e', e = Some e' → ¬ parseError raw e') ∧
      wf_binding vb ∧
      noColon (Source vb) ∧ noColon (Destination vb) ∧ noColon (Flags vb) ∧
      sortFlags (Flags vb) = Flags vb
  end.
Proof.
  destruct (NewVolumeBinding raw) as [[vb |] e] eqn:Hn.
  - destruct (NewVolumeBinding_Some _ _ _ Hn) as (-> & _ & ? & ? & ? & ? & ?).
    split_and!; try done.
    intros e' He'. by eapply Validate_not_parseError.
  - by eapply NewVolumeBinding_None.
Qed.

(** X2. Parsing what [ToString] prints for a binding with [int64]
    numbers and without colons in its strings always returns a
    binding, for both values of [normalize]: the source, destination
    and size printed, the flags printed in sorted order, and the IO
    quotas unless the 2-field form dropped them; the error is the
    verdict of [Validate] on that binding. *)
Theorem X2_parse_of_emission (vb : VolumeBinding) (normalize : bool) :
  wf_binding vb →
  noColon (Source vb) → noColon (Destination vb) → noColon (Flags vb) →
  NewVolumeBinding (ToString vb normalize) =
    (Some (reparsed vb normalize), Validate (reparsed vb normalize)).
Proof. apply NewVolumeBinding_ToString. Qed.

(** X2 on the binding of scenario S2 with the monopoly flag: the
    normalized emission parses to flags [oorw], without [m]. *)
Lemma X2_witness :
  NewVolumeBinding (ToString (mkVolumeBinding "/h" "/c" "morw" 0 0 0 0 0) true) =
    (Some (mkVolumeBinding "/h" "/c" "oorw" 0 0 0 0 0), None).
Proof.
  refine (eq_trans
            (X2_parse_of_emission (mkVolumeBinding "/h" "/c" "morw" 0 0 0 0 0)
               true _ eq_refl eq_refl eq_refl) _).
  - apply wf_binding_small. lia.
  - by vm_compute.
Defined.

(** X3. A binding returned by [NewVolumeBinding] whose flags have no
    letter [o], and which has no IO quota when its flags are empty
    and its size is zero, is a fixed point: parsing its non-normalized
    emission returns the same binding with the same error. *)
Theorem X3_parsed_is_fixed_point (raw : string) (vb : VolumeBinding)
    (e : option error) :
  NewVolumeBinding raw = (Some vb, e) →
  GoStrings.Contains (Flags vb) "o" = false →
  (bare vb → anyIO vb = false) →
  NewVolumeBinding (ToString vb false) = (Some vb, e).
Proof.
  intros Hn Ho Hbare.
  destruct (NewVolumeBinding_Some _ _ _ Hn) as (-> & _ & Hwf & Hs & Hd & Hf & Hsort).
  rewrite NewVolumeBinding_ToString by done.
  rewrite reparsed_canonical; [done |].
  split_and!; try done. unfold emitFlags. by rewrite Ho.
Qed.

(** X3 on ["AUTO:/data:wr:100:1:2:3:4"]: the parse sorts the flags,
    and the emission of the result parses to the result. *)
Lemma X3_witness :
  NewVolumeBinding
    (ToString (mkVolumeBinding "AUTO" "/data" "rw" 100 1 2 3 4) false) =
    (Some (mkVolumeBinding "AUTO" "/data" "rw" 100 1 2 3 4), None).
Proof.
  apply (X3_parsed_is_fixed_point "AUTO:/data:wr:100:1:2:3:4").
  - by vm_compute.
  - reflexivity.
  - intros [H _]. discriminate H.
Defined.

Lemma sortFlags_Permutation (f1 f2 : string) :
  GoUtf8.explode f1 ≡ₚ GoUtf8.explode f2 → sortFlags f1 = sortFlags f2.
Proof.
  intros Hp. unfold sortFlags, GoSort.Strings. f_equal.
  apply (Sorted_unique String.le); try apply (Sorted_merge_sort _).
  by rewrite !merge_sort_Permutation.
Qed.

(** X4. The order of the flag characters in the raw string does not
    matter: two raw strings of legal arity that differ only by a
    permutation of the characters of the flag field give the same
    binding and the same error. *)
Theorem X4_flag_order_irrelevant (raw1 raw2 p0 p1 f1 f2 : string)
    (rest : list string) :
  GoStrings.Split raw1 ":" = p0 :: p1 :: f1 :: rest →
  GoStrings.Split raw2 ":" = p0 :: p1 :: f2 :: rest →
  GoUtf8.explode f1 ≡ₚ GoUtf8.explode f2 →
  legalArity (length (GoStrings.Split raw1 ":")) →
  NewVolumeBinding raw1 = NewVolumeBinding raw2.
Proof.
  intros H1 H2 Hp%sortFlags_Permutation Hlegal.
  unfold NewVolumeBinding. rewrite H1 in *. rewrite H2.
  unfold legalArity in Hlegal.
  destruct rest as [|p3 [|p4 [|p5 [|p6 [|p7 [|p8 tl]]]]]];
    simpl in Hlegal; try lia; simpl parseParts;
    unfold case8, case4, parseField, bindE;
    repeat match goal with
           | |- context [GoStrconv.ParseInt ?s] =>
               destruct (GoStrconv.ParseInt s); [done |]
           end;
    simpl; by rewrite Hp.
Qed.

(** X4 on the flags [rwm] and [mrw]. *)
Lemma X4_witness :
  NewVolumeBinding "AUTO:/data:rwm:100" = NewVolumeBinding "AUTO:/data:mrw:100".
Proof.
  apply (X4_flag_order_irrelevant _ _ "AUTO" "/data" "rwm" "mrw" ["100"]);
    try reflexivity.
  - vm_compute. symmetry. apply (Permutation_cons_append ["r"; "w"] "m").
  - vm_compute. tauto.
Defined.

(** ** [NewVolumeBindings] *)

Lemma NewVolumeBindings_loop_ok (volumes : list string)
    (acc vbs : list VolumeBinding) :
  allParse volumes vbs →
  NewVolumeBindings_loop acc volumes = (acc ++ vbs, None).
Proof.
  intros Hall. revert acc.
  induction Hall as [|raw vb volumes vbs Hraw _ IH]; intros acc; simpl.
  - by rewrite app_nil_r.
  - rewrite Hraw, IH. by rewrite <- (assoc_L (++)).
Qed.

Lemma NewVolumeBindings_loop_err (pre post : list string) (raw : string)
    (acc vbs : list VolumeBinding) (o : option VolumeBinding) (e : error) :
  allParse pre vbs → NewVolumeBinding raw = (o, Some e) →
  NewVolumeBindings_loop acc (pre ++ raw :: post) = ([], Some e).
Proof.
  intros Hall Hraw. revert acc.
  induction Hall as [|raw' vb pre vbs Hraw' _ IH]; intros acc; simpl.
  - rewrite Hraw. by destruct o.
  - by rewrite Hraw', IH.
Qed.

(** Either every string parses, or there is a first one that does
    not. *)
Lemma allParse_or_first_error (volumes : list string) :
  (∃ vbs, allParse volumes vbs) ∨
  (∃ pre raw post vbs o e,
     volumes = pre ++ raw :: post ∧ allParse pre vbs ∧
     NewVolumeBinding raw = (o, Some e)).
Proof.
  induction volumes as [|raw volumes IH].
  - left. exists []. constructor.
  - destruct (NewVolumeBinding raw) as [o [e |]] eqn:Hraw.
    + right. exists [], raw, volumes, [], o, e. split_and!; [done | constructor | done].
    + destruct o as [vb |];
        [| apply NewVolumeBinding_None in Hraw as (? & ? & _); done].
      destruct IH as [[vbs Hall] | (pre & r & post & vbs & o & e & -> & Hall & Hr)].
      * left. exists (vb :: vbs). by constructor.
      * right. exists (raw :: pre), r, post, (vb :: vbs), o, e.
        split_and!; [done | by constructor | done].
Qed.

(** X5. [NewVolumeBindings] is all or nothing: it returns the nil
    error exactly when every string parses and validates, and then
    the bindings in the order of the strings; otherwise it returns
    the nil slice with the error of the first string that fails,
    whatever follows it. *)
Theorem X5_NewVolumeBindings_all_or_nothing (volumes : list string) :
  (∀ vbs, NewVolumeBindings volumes = (vbs, None) ↔ allParse volumes vbs) ∧
  (∀ vbs e, NewVolumeBindings volumes = (vbs, Some e) ↔
     vbs = [] ∧
     ∃ pre raw post, volumes = pre ++ raw :: post ∧
       Forall (λ r, snd (NewVolumeBinding r) = None) pre ∧
       snd (NewVolumeBinding raw) = Some e).
Proof.
  assert (∀ pre vbs, allParse pre vbs →
            Forall (λ r, snd (NewVolumeBinding r) = None) pre) as Hsnd.
  { intros pre vbs Hall. induction Hall as [|???? Hr]; constructor; [|done].
    by rewrite Hr. }
  assert (∀ pre, Forall (λ r, snd (NewVolumeBinding r) = None) pre →
            ∃ vbs, allParse pre vbs) as Hback.
  { intros pre Hpre. induction Hpre as [|r pre Hr _ [vbs IH]].
    - exists []. constructor.
    - destruct (NewVolumeBinding r) as [[vb |] e] eqn:Hn; simpl in Hr; subst.
      + exists (vb :: vbs). by constructor.
      + apply NewVolumeBinding_None in Hn as (? & ? & _). done. }
  unfold NewVolumeBindings. split.
  - intros vbs. split.
    + intros Hres.
      destruct (allParse_or_first_error volumes)
        as [[vbs' Hall] | (pre & r & post & vbs' & o & e & -> & Hall & Hr)].
      * rewrite (NewVolumeBindings_loop_ok _ [] _ Hall) in Hres.
        by simplify_eq.
      * by rewrite (NewVolumeBindings_loop_err _ _ _ [] _ _ _ Hall Hr) in Hres.
    + intros Hall. by rewrite (NewVolumeBindings_loop_ok _ [] _ Hall).
  - intros vbs e. split.
    + intros Hres.
      destruct (allParse_or_first_error volumes)
        as [[vbs' Hall] | (pre & r & post & vbs' & o & e' & -> & Hall & Hr)].
      * by rewrite (NewVolumeBindings_loop_ok _ [] _ Hall) in Hres.
      * rewrite (NewVolumeBindings_loop_err _ _ _ [] _ _ _ Hall Hr) in Hres.
        simplify_eq. split; [done |]. exists pre, r, post.
        split_and!; [done | by eapply Hsnd | by rewrite Hr].
    + intros (-> & pre & r & post & -> & Hpre & Hr).
      destruct (Hback _ Hpre) as [vbs Hall].
      destruct (NewVolumeBinding r) as [o e'] eqn:Hn. simpl in Hr. subst.
      by rewrite (NewVolumeBindings_loop_err _ _ _ [] _ _ _ Hall Hn).
Qed.

Lemma allParse_emissions (vbs : list VolumeBinding) :
  Forall (λ vb, canonical vb ∧ Validate vb = None) vbs →
  allParse ((λ vb, ToString vb false) <$> vbs) vbs.
Proof.
  intros Hall. induction Hall as [|vb vbs [Hc Hv] _ IH]; [constructor |].
  rewrite fmap_cons. constructor; [|done].
  pose proof Hc as (? & ? & ? & ? & _).
  rewrite NewVolumeBinding_ToString by done.
  by rewrite (reparsed_canonical _ Hc), Hv.
Qed.

(** X6. Parsing the non-normalized emissions of valid canonical
    bindings gives the bindings back, in order. *)
Theorem X6_NewVolumeBindings_roundtrip (vbs : list VolumeBinding) :
  Forall (λ vb, canonical vb ∧ Validate vb = None) vbs →
  NewVolumeBindings ((λ vb, ToString vb false) <$> vbs) = (vbs, None).
Proof.
  intros Hall. unfold NewVolumeBindings.
  by rewrite (NewVolumeBindings_loop_ok _ [] vbs (allParse_emissions _ Hall)).
Qed.

Lemma canonical_vbS1 : canonical vbS1.
Proof.
  split_and!; try reflexivity.
  - by vm_compute.
  - intros [H _]. discriminate H.
Qed.

(** X6 on the binding of scenario S1 and a second one. *)
Lemma X6_witness :
  NewVolumeBindings ["AUTO:/data:mrw:1024:10:20:4096:8192"; "/h:/c"] =
    ([vbS1; mkVolumeBinding "/h" "/c" EmptyString 0 0 0 0 0], None).
Proof.
  apply (X6_NewVolumeBindings_roundtrip
           [vbS1; mkVolumeBinding "/h" "/c" EmptyString 0 0 0 0 0]).
  constructor; [split; [apply canonical_vbS1 | reflexivity] |].
  constructor; [| constructor].
  split; [| reflexivity].
  split_and!; try reflexivity. apply wf_binding_small. lia.
Defined.

(** ** JSON *)

Section JSON_facts.
Variable json_Marshal : list string → string.
Variable json_Unmarshal : string → option (list string).

Lemma foldl_snoc_fmap {A B} (f : A → B) (acc : list B) (l : list A) :
  foldl (λ out x, out ++ [f x]) acc l = acc ++ (f <$> l).
Proof.
  revert acc. induction l as [|x l IH]; intros acc; simpl.
  - by rewrite app_nil_r.
  - rewrite IH. by rewrite <- (assoc_L (++)).
Qed.

(** An error of [NewVolumeBindings] comes with the nil slice. *)
Lemma NewVolumeBindings_error (volumes : list string)
    (vbs : list VolumeBinding) (e : error) :
  NewVolumeBindings volumes = (vbs, Some e) → vbs = [].
Proof.
  unfold NewVolumeBindings. intros Hres.
  destruct (allParse_or_first_error volumes)
    as [[vbs' Hall] | (pre & r & post & vbs' & o & e' & -> & Hall & Hr)].
  - by rewrite (NewVolumeBindings_loop_ok _ [] _ Hall) in Hres.
  - rewrite (NewVolumeBindings_loop_err _ _ _ [] _ _ _ Hall Hr) in Hres.
    by simplify_eq.
Qed.

(** X7. Whenever the JSON codec gives back the string array that
    [MarshalJSON] hands to it, [UnmarshalJSON] of [MarshalJSON]
    restores a collection of valid canonical bindings, whatever the
    receiver held before. *)
Theorem X7_JSON_roundtrip (old vbs : list VolumeBinding) :
  json_Unmarshal (json_Marshal ((λ vb, ToString vb false) <$> vbs)) =
    Some ((λ vb, ToString vb false) <$> vbs) →
  Forall (λ vb, canonical vb ∧ Validate vb = None) vbs →
  UnmarshalJSON json_Unmarshal old (MarshalJSON json_Marshal vbs) = (vbs, None).
Proof.
  intros Hcodec Hall. unfold UnmarshalJSON, MarshalJSON.
  rewrite foldl_snoc_fmap, app_nil_l, Hcodec.
  unfold NewVolumeBindings.
  by rewrite (NewVolumeBindings_loop_ok _ [] vbs (allParse_emissions _ Hall)).
Qed.

(** X8. The receiver of [UnmarshalJSON] after a failure: a document
    the codec rejects leaves it as it was, while a volume that does
    not parse or validate leaves it nil, with the error of the first
    such volume. *)
Theorem X8_UnmarshalJSON_failure (old : list VolumeBinding) (b : string) :
  match json_Unmarshal b with
  | None => UnmarshalJSON json_Unmarshal old b = (old, Some ErrJSON)
  | Some volumes =>
      match snd (NewVolumeBindings volumes) with
      | None =>
          UnmarshalJSON json_Unmarshal old b = (fst (NewVolumeBindings volumes), None) ∧
          allParse volumes (fst (NewVolumeBindings volumes))
      | Some e =>
          UnmarshalJSON json_Unmarshal old b = ([], Some (ErrVolume e)) ∧
          ∃ pre raw post, volumes = pre ++ raw :: post ∧
            Forall (λ r, snd (NewVolumeBinding r) = None) pre ∧
            snd (NewVolumeBinding raw) = Some e
      end
  end.
Proof.
  unfold UnmarshalJSON.
  destruct (json_Unmarshal b) as [volumes |]; [|done].
  destruct (NewVolumeBindings volumes) as [vbs [e |]] eqn:Hn; simpl.
  - pose proof (NewVolumeBindings_error _ _ _ Hn) as ->. split; [done |].
    unfold NewVolumeBindings in Hn.
    destruct (allParse_or_first_error volumes)
      as [[vbs' Hall] | (pre & r & post & vbs' & o & e' & -> & Hall & Hr)].
    + by rewrite (NewVolumeBindings_loop_ok _ [] _ Hall) in Hn.
    + rewrite (NewVolumeBindings_loop_err _ _ _ [] _ _ _ Hall Hr) in Hn.
      simplify_eq. exists pre, r, post. split_and!; [done | | by rewrite Hr].
      clear Hr. induction Hall as [|???? Hx]; constructor; [|done].
      by rewrite Hx.
  - split; [done |]. unfold NewVolumeBindings in Hn.
    destruct (allParse_or_first_error volumes)
      as [[vbs' Hall] | (pre & r & post & vbs' & o & e' & -> & Hall & Hr)].
    + rewrite (NewVolumeBindings_loop_ok _ [] _ Hall) in Hn. by simplify_eq.
    + by rewrite (NewVolumeBindings_loop_err _ _ _ [] _ _ _ Hall Hr) in Hn.
Qed.
End JSON_facts.

(** X7 with the semicolon codec. *)
Lemma X7_witness :
  UnmarshalJSON lineUnmarshal [vbQuotaOnly] (MarshalJSON lineMarshal [vbS1]) =
    ([vbS1], None).
Proof.
  apply (X7_JSON_roundtrip lineMarshal lineUnmarshal).
  - by vm_compute.
  - constructor; [split; [apply canonical_vbS1 | reflexivity] | constructor].
Defined.

(** ** Monopoly and normalization *)

(** X9. An auto volume with the [m] flag cannot be written with three
    fields: without a size field the size is 0, and the binding is
    returned with the monopoly error. *)
Theorem X9_monopoly_needs_size (raw p0 p1 p2 : string) :
  GoStrings.Split raw ":" = [p0; p1; p2] →
  GoStrings.HasSuffix p0 auto = true →
  GoStrings.Contains p2 "m" = true →
  p1 ≠ EmptyString →
  NewVolumeBinding raw =
    (Some (mkVolumeBinding p0 p1 (sortFlags p2) 0 0 0 0 0),
     Some ErrMonopolyLimited).
Proof.
  intros Hsplit Hsrc Hm Hdst. unfold NewVolumeBinding. rewrite Hsplit. simpl.
  f_equal. rewrite Validate_cases. simpl.
  destruct (String.eqb_spec p1 EmptyString); [done |].
  unfold RequireScheduleMonopoly, RequireScheduleUnlimitedQuota, RequireSchedule.
  simpl. by rewrite Hsrc, Contains_sortFlags, Hm.
Qed.

(** X9 on ["AUTO:/data:rwm"]. *)
Lemma X9_witness :
  NewVolumeBinding "AUTO:/data:rwm" =
    (Some (mkVolumeBinding "AUTO" "/data" "mrw" 0 0 0 0 0),
     Some ErrMonopolyLimited).
Proof.
  exact (X9_monopoly_needs_size "AUTO:/data:rwm" "AUTO" "/data" "rwm"
           eq_refl eq_refl eq_refl ltac:(discriminate)).
Defined.

Lemma ReplaceAll_removes (s : string) (c : ascii) :
  GoStrings.Contains (GoStrings.ReplaceAll s c EmptyString) c = false.
Proof.
  induction s as [|a s IH]; [done |]. simpl.
  destruct (Ascii.eqb a c) eqn:Ha; [by rewrite app_nil_s |].
  simpl. by rewrite Ha, IH.
Qed.

Lemma emitFlags_normalize (flags : string) :
  emitFlags flags true =
  emitFlags (GoStrings.ReplaceAll flags "m" EmptyString) false.
Proof. reflexivity. Qed.

Lemma emitFlags_Contains (flags : string) (c : ascii) :
  GoStrings.Contains flags c = false →
  GoStrings.Contains "ro" c = false → GoStrings.Contains "wo" c = false →
  GoStrings.Contains (emitFlags flags false) c = false.
Proof.
  intros Hf Hr Hw. unfold emitFlags.
  destruct (GoStrings.Contains flags "o"); [|done].
  repeat apply ReplaceAll_Contains; done.
Qed.

(** X10. Normalization and the [m] flag: the flags [ToString] prints
    with [normalize] never contain [m]; without [m] in the flags
    [normalize] changes nothing; the normalized emission is the plain
    emission of the binding without its [m] flags, except when flags
    made of [m] only and size 0 would select the 2-field form: the
    [switch] looks at the flags before normalization, and the 4- or
    8-field form is printed with an empty flag field. *)
Theorem X10_normalize_monopoly (vb : VolumeBinding) :
  GoStrings.Contains (emitFlags (Flags vb) true) "m" = false ∧
  (GoStrings.Contains (Flags vb) "m" = false →
   ToString vb true = ToString vb false) ∧
  ((bare (dropMonopoly vb) → bare vb) →
   ToString vb true = ToString (dropMonopoly vb) false) ∧
  (bare (dropMonopoly vb) → ¬ bare vb →
   ToString vb true =
     if anyIO vb then form8 vb EmptyString else form4 vb EmptyString).
Proof.
  split_and!.
  - rewrite emitFlags_normalize.
    apply emitFlags_Contains; [apply ReplaceAll_removes | done | done].
  - intros Hm. unfold ToString.
    by rewrite emitFlags_normalize, ReplaceAll_absent.
  - intros Himp. unfold ToString. rewrite emitFlags_normalize.
    pose proof (bare_test vb) as Hb. pose proof (bare_test (dropMonopoly vb)) as Hd.
    assert (bare vb → bare (dropMonopoly vb)) as Hconv.
    { intros [Hf Hs]. split; [|done]. simpl. by rewrite Hf. }
    destruct (String.eqb (Flags vb) EmptyString && (SizeInBytes vb =? 0)%Z),
      (String.eqb (Flags (dropMonopoly vb)) EmptyString &&
       (SizeInBytes (dropMonopoly vb) =? 0)%Z); try done.
    + assert (bare (dropMonopoly vb)) as Hx by (apply Hconv; by apply Hb).
      by apply Hd in Hx.
    + assert (bare vb) as Hx by (apply Himp; by apply Hd).
      by apply Hb in Hx.
  - intros [Hf Hs] Hnb. unfold ToString. rewrite emitFlags_normalize.
    simpl in Hf, Hs. rewrite Hf.
    pose proof (bare_test vb) as Hb.
    destruct (String.eqb (Flags vb) EmptyString && (SizeInBytes vb =? 0)%Z);
      [| done].
    exfalso. apply Hnb. by apply Hb.
Qed.

(** X10 on flags [m] and size 0: the 4-field form with an empty flag
    field. *)
Lemma X10_witness :
  ToString (mkVolumeBinding "AUTO" "/data" "m" 0 0 0 0 0) true = "AUTO:/data::0".
Proof.
  refine (eq_trans
            (proj2 (proj2 (proj2
               (X10_normalize_monopoly
                  (mkVolumeBinding "AUTO" "/data" "m" 0 0 0 0 0)))) _ _) _).
  - by split.
  - intros [H _]. discriminate H.
  - reflexivity.
Defined.

(** ** [TotalSize] *)

Lemma sumZ_abs f (l : list VolumeBinding) :
  (Z.abs (sumZ f l) <= sumZ (λ vb, Z.abs (f vb)) l)%Z.
Proof. induction l as [|x l IH]; simpl; lia. Qed.

Lemma TotalSize_app (l1 l2 : list VolumeBinding) :
  TotalSize (l1 ++ l2) = wrap64 (TotalSize l1 + TotalSize l2).
Proof.
  rewrite !TotalSize_sum64. unfold sum64.
  by rewrite sumZ_app, wrap64_add_l, wrap64_add_r.
Qed.

(** X11. [TotalSize] composes: the total of a concatenation is the
    [int64] sum of the totals, the order of the bindings does not
    matter, and the total is the exact sum of the sizes as long as
    their absolute values add up to an [int64]. *)
Theorem X11_TotalSize_compose :
  (∀ l1 l2, TotalSize (l1 ++ l2) = wrap64 (TotalSize l1 + TotalSize l2)) ∧
  (∀ l1 l2, l1 ≡ₚ l2 → TotalSize l1 = TotalSize l2) ∧
  (∀ l, (sumZ (λ vb, Z.abs (SizeInBytes vb)) l <= int64_max)%Z →
        TotalSize l = sumZ SizeInBytes l).
Proof.
  split_and!.
  - apply TotalSize_app.
  - intros l1 l2 Hp. rewrite !TotalSize_sum64. unfold sum64.
    by rewrite (sumZ_Permutation _ _ _ Hp).
  - intros l Hb. rewrite TotalSize_sum64. apply wrap64_id.
    pose proof (sumZ_abs SizeInBytes l).
    unfold in_int64, int64_min, int64_max in *. lia.
Qed.

(** X11 on two bindings in both orders. *)
Lemma X11_witness :
  TotalSize [vbPlus100; vbMinus200] = TotalSize [vbMinus200; vbPlus100].
Proof.
  apply (proj1 (proj2 X11_TotalSize_compose)). apply Permutation_swap.
Defined.

(** ** More on [MergeVolumeBindings] *)

Section merge_more.
Implicit Types (k : string * string * string) (l inputs : list VolumeBinding).

(** The bindings of the result. *)
Lemma Merge_elem (vbs1 : list VolumeBinding) (vbs2 : list (list VolumeBinding))
    (vb : VolumeBinding) :
  Forall wf_binding (concat (vbs2 ++ [vbs1])) →
  vb ∈ MergeVolumeBindings vbs1 vbs2 ↔
  ∃ k, group k (concat (vbs2 ++ [vbs1])) ≠ [] ∧
       kept (concat (vbs2 ++ [vbs1])) k ∧
       vb = merged k (group k (concat (vbs2 ++ [vbs1]))).
Proof.
  intros Hwf. unfold MergeVolumeBindings. rewrite list_elem_of_omap.
  set (inputs := concat (vbs2 ++ [vbs1])) in *. split.
  - intros ([k p] & Hin%elem_of_map_to_list & Hemit).
    rewrite sizeMap_lookup in Hin by done. fold inputs in Hin.
    unfold groupPara in Hin. apply emitGroup_Some in Hemit as [Hsize ->].
    exists k. destruct (group k inputs) as [|x g] eqn:Hg; [done |].
    simplify_eq. unfold kept. by rewrite Hg.
  - intros (k & Hne & Hkept & ->).
    exists (k, paraSums (group k inputs)). split.
    + apply elem_of_map_to_list. rewrite sizeMap_lookup by done.
      fold inputs. unfold groupPara. by destruct (group k inputs).
    + by apply emitGroup_Some.
Qed.

Lemma Merge_NoDup_keys (vbs1 : list VolumeBinding)
    (vbs2 : list (list VolumeBinding)) :
  NoDup (keyOf <$> MergeVolumeBindings vbs1 vbs2).
Proof.
  eapply sublist_NoDup; [| apply emitted_keys_sublist].
  apply NoDup_fst_map_to_list.
Qed.

Lemma keyOf_merged k g : keyOf (merged k g) = k.
Proof. by destruct k as [[? ?] ?]. Qed.

Lemma merged_wf k g : wf_binding (merged k g).
Proof. repeat split; apply wrap64_range. Qed.

Lemma group_elem k l x : x ∈ group k l ↔ keyOf x = k ∧ x ∈ l.
Proof. unfold group. by rewrite list_elem_of_filter. Qed.

Lemma group_Permutation k l1 l2 : l1 ≡ₚ l2 → group k l1 ≡ₚ group k l2.
Proof. intros Hp. unfold group. by rewrite Hp. Qed.

Lemma groupPara_Permutation k l1 l2 :
  l1 ≡ₚ l2 → groupPara k l1 = groupPara k l2.
Proof.
  intros Hp%(group_Permutation k). unfold groupPara.
  destruct (group k l1) as [|x g] eqn:H1, (group k l2) as [|y h] eqn:H2.
  - done.
  - by apply Permutation_nil_l in Hp.
  - by apply Permutation_nil_r in Hp.
  - f_equal. unfold paraSums, sum64.
    by rewrite !(sumZ_Permutation _ _ _ Hp).
Qed.

(** The total of the result, by groups kept. *)
Lemma TotalSize_Merge (vbs1 : list VolumeBinding)
    (vbs2 : list (list VolumeBinding)) :
  let inputs := concat (vbs2 ++ [vbs1]) in
  Forall wf_binding inputs →
  TotalSize (MergeVolumeBindings vbs1 vbs2) =
    sum64 SizeInBytes (filter (λ vb, kept inputs (keyOf vb)) inputs).
Proof.
  intros inputs Hwf.
  rewrite TotalSize_sum64. unfold MergeVolumeBindings. apply regroup.
  - apply NoDup_fst_map_to_list.
  - intros k p Hin%elem_of_map_to_list. by rewrite sizeMap_lookup in Hin.
  - intros vb Hin. apply list_elem_of_fmap.
    assert (is_Some (groupPara (keyOf vb) inputs)) as [p Hp].
    { unfold groupPara.
      assert (vb ∈ group (keyOf vb) inputs) as Hg by (by apply group_elem).
      destruct (group (keyOf vb) inputs); [by apply elem_of_nil in Hg | eauto]. }
    exists (keyOf vb, p). split; [done |].
    apply elem_of_map_to_list. by rewrite sizeMap_lookup.
Qed.

Lemma filter_all {A} (P : A → Prop) `{!∀ x, Decision (P x)} (l : list A) :
  (∀ x, P x) → filter P l = l.
Proof.
  intros Hall. induction l as [|x l IH]; [done |].
  by rewrite filter_cons, decide_True, IH.
Qed.

Lemma group_absent k l : k ∉ keyOf <$> l → group k l = [].
Proof.
  intros Hk. induction l as [|x l IH]; [done |].
  rewrite fmap_cons in Hk. apply not_elem_of_cons in Hk as [Hne Hk].
  by rewrite group_cons, decide_False, IH.
Qed.

(** With one binding per key, the group of a binding is the binding. *)
Lemma group_singleton l x :
  NoDup (keyOf <$> l) → x ∈ l → group (keyOf x) l = [x].
Proof.
  induction l as [|y l IH]; intros Hnd Hx; [by apply elem_of_nil in Hx |].
  rewrite fmap_cons in Hnd. apply NoDup_cons in Hnd as [Hy Hnd].
  rewrite group_cons. apply elem_of_cons in Hx as [-> | Hx].
  - rewrite decide_True by done. by rewrite group_absent.
  - rewrite decide_False; [by apply IH |].
    intros Heq. apply Hy. rewrite Heq. apply list_elem_of_fmap. eauto.
Qed.

Lemma merged_singleton x : wf_binding x → merged (keyOf x) [x] = x.
Proof.
  intros (? & ? & ? & ? & ?). destruct x. unfold merged, sum64. simpl in *.
  rewrite !Z.add_0_r, !wrap64_id; done.
Qed.
End merge_more.

(** X12. The result of [MergeVolumeBindings] does not depend on how
    the input bindings are ordered or spread over the arguments: two
    calls whose arguments hold the same bindings give the same
    bindings; in particular the merge is commutative. *)
Theorem X12_Merge_order_irrelevant (vbs1 vbs1' : list VolumeBinding)
    (vbs2 vbs2' : list (list VolumeBinding)) :
  Forall wf_binding (concat (vbs2 ++ [vbs1])) →
  concat (vbs2 ++ [vbs1]) ≡ₚ concat (vbs2' ++ [vbs1']) →
  MergeVolumeBindings vbs1 vbs2 ≡ₚ MergeVolumeBindings vbs1' vbs2'.
Proof.
  intros Hwf Hp.
  assert (Forall wf_binding (concat (vbs2' ++ [vbs1']))) as Hwf'
    by (by rewrite <- Hp).
  unfold MergeVolumeBindings.
  assert (foldl (foldl mergeStep) ∅ (vbs2 ++ [vbs1]) =
          foldl (foldl mergeStep) ∅ (vbs2' ++ [vbs1'])) as ->; [|done].
  apply map_eq. intros k. rewrite !sizeMap_lookup by done.
  by apply groupPara_Permutation.
Qed.

(** X12 as commutativity on two collections. *)
Lemma X12_witness :
  MergeVolumeBindings [vbPlus100] [[vbMinus200; vbS1]] ≡ₚ
  MergeVolumeBindings [vbMinus200; vbS1] [[vbPlus100]].
Proof.
  apply X12_Merge_order_irrelevant.
  - repeat constructor; by vm_compute.
  - simpl. apply (Permutation_app_comm [vbMinus200; vbS1] [vbPlus100]).
Defined.

(** X13. Every binding of the result of [MergeVolumeBindings] has a
    size that is not negative, [int64] numbers, and the key of some
    input binding; no two of them have the same key. *)
Theorem X13_Merge_result_invariants (vbs1 : list VolumeBinding)
    (vbs2 : list (list VolumeBinding)) :
  Forall wf_binding (concat (vbs2 ++ [vbs1])) →
  Forall (λ vb, (0 <= SizeInBytes vb)%Z ∧ wf_binding vb ∧
                ∃ x, x ∈ concat (vbs2 ++ [vbs1]) ∧ keyOf x = keyOf vb)
    (MergeVolumeBindings vbs1 vbs2) ∧
  NoDup (MergeVolumeBindings vbs1 vbs2).
Proof.
  intros Hwf. split.
  - apply Forall_forall. intros vb (k & Hne & Hkept & ->)%Merge_elem; [|done].
    split_and!; [done | apply merged_wf |].
    destruct (group k (concat (vbs2 ++ [vbs1]))) as [|x g] eqn:Hg; [done |].
    assert (x ∈ group k (concat (vbs2 ++ [vbs1]))) as Hx
      by (rewrite Hg; by left).
    apply group_elem in Hx as [Hk Hx]. exists x. split; [done |].
    by rewrite keyOf_merged.
  - eapply NoDup_fmap_1, Merge_NoDup_keys.
Qed.

(** X13 on a release larger than the allocation: nothing negative is
    returned. *)
Lemma X13_witness :
  Forall (λ vb, (0 <= SizeInBytes vb)%Z)
    (MergeVolumeBindings [vbPlus100; vbS1] [[vbMinus200]]).
Proof.
  eapply Forall_impl.
  - apply (X13_Merge_result_invariants [vbPlus100; vbS1] [[vbMinus200]]).
    repeat constructor; by vm_compute.
  - intros vb [H _]. exact H.
Defined.

(** X14. Merging is idempotent: merging the result of a merge with
    nothing gives the same bindings again. *)
Theorem X14_Merge_idempotent (vbs1 : list VolumeBinding)
    (vbs2 : list (list VolumeBinding)) :
  Forall wf_binding (concat (vbs2 ++ [vbs1])) →
  MergeVolumeBindings (MergeVolumeBindings vbs1 vbs2) [] ≡ₚ
  MergeVolumeBindings vbs1 vbs2.
Proof.
  intros Hwf.
  set (res := MergeVolumeBindings vbs1 vbs2).
  assert (NoDup (keyOf <$> res)) as Hkeys by apply Merge_NoDup_keys.
  assert (∀ vb, vb ∈ res → wf_binding vb ∧ (0 <= SizeInBytes vb)%Z) as Hres.
  { intros vb (k & _ & Hkept & ->)%Merge_elem; [|done].
    split; [apply merged_wf | done]. }
  assert (Forall wf_binding (concat ([] ++ [res]))) as Hwf'.
  { simpl. rewrite app_nil_r. apply Forall_forall. intros vb Hvb.
    by apply Hres. }
  apply NoDup_Permutation.
  - eapply NoDup_fmap_1, Merge_NoDup_keys.
  - by eapply NoDup_fmap_1.
  - intros vb. rewrite (Merge_elem res [] vb Hwf').
    simpl. rewrite app_nil_r. split.
    + intros (k & Hne & _ & ->).
      destruct (group k res) as [|x g] eqn:Hg; [done |].
      assert (x ∈ group k res) as Hx by (rewrite Hg; by left).
      apply group_elem in Hx as [<- Hx].
      rewrite (group_singleton res x Hkeys Hx) in Hg. simplify_eq.
      rewrite merged_singleton; [done | by apply Hres].
    + intros Hvb. destruct (Hres vb Hvb) as [Hw Hs].
      exists (keyOf vb). rewrite (group_singleton res vb Hkeys Hvb).
      split_and!; [done | | by rewrite merged_singleton].
      unfold kept. rewrite (group_singleton res vb Hkeys Hvb).
      unfold sum64. simpl. rewrite Z.add_0_r, wrap64_id; [done | apply Hw].
Qed.

(** X14 on scenario S3. *)
Lemma X14_witness :
  MergeVolumeBindings (MergeVolumeBindings [vbPlus100; vbMinus100] []) [] ≡ₚ
  MergeVolumeBindings [vbPlus100; vbMinus100] [].
Proof.
  apply X14_Merge_idempotent. repeat constructor; by vm_compute.
Defined.

(** X15. When no group has a negative sum, merging keeps the total
    size: the [TotalSize] of the result is the [TotalSize] of all the
    input bindings together. *)
Theorem X15_Merge_keeps_total (vbs1 : list VolumeBinding)
    (vbs2 : list (list VolumeBinding)) :
  Forall wf_binding (concat (vbs2 ++ [vbs1])) →
  (∀ k, kept (concat (vbs2 ++ [vbs1])) k) →
  TotalSize (MergeVolumeBindings vbs1 vbs2) =
    TotalSize (concat (vbs2 ++ [vbs1])).
Proof.
  intros Hwf Hkept. rewrite TotalSize_Merge by done. cbv zeta.
  rewrite filter_all by (intros vb; apply Hkept).
  by rewrite TotalSize_sum64.
Qed.

(** X15 on an allocation and a smaller release. *)
Lemma X15_witness :
  TotalSize (MergeVolumeBindings [vbPlus100] [[vbMinus100]]) =
    TotalSize [vbMinus100; vbPlus100].
Proof.
  apply (X15_Merge_keeps_total [vbPlus100] [[vbMinus100]]).
  - repeat constructor; by vm_compute.
  - intros k. unfold kept. simpl. rewrite !group_cons.
    destruct (decide (keyOf vbMinus100 = k)), (decide (keyOf vbPlus100 = k));
      by vm_compute.
Defined.

(** ** [Divide] *)

Section Divide_facts.
Implicit Types (st : Store) (vbs : Slice) (ps : list nat).

Lemma Divide_loop_spec st ps (vals : list VolumeBinding) (soft hard : list nat) :
  mapM (deref st) ps = Some vals →
  Divide_loop st ps soft hard =
    Some (soft ++ filter (λ p, isSoft st p = true) ps,
          hard ++ filter (λ p, ¬ isSoft st p = true) ps).
Proof.
  intros Hvals%mapM_Some. revert soft hard.
  induction Hvals as [|p vb ps vals Hp _ IH]; intros soft hard; simpl.
  - by rewrite !app_nil_r.
  - rewrite Hp. cbn [mbind option_bind]. rewrite !filter_cons.
    assert (isSoft st p = GoStrings.HasSuffix (Source vb) auto) as Hsoft
      by (unfold isSoft; by rewrite Hp).
    destruct (GoStrings.HasSuffix (Source vb) auto).
    + rewrite IH, decide_True, decide_False by (rewrite Hsoft; tauto).
      by rewrite <- (assoc_L (++)).
    + rewrite IH, decide_False, decide_True by (by rewrite Hsoft).
      by rewrite <- (assoc_L (++)).
Qed.

(** The bindings behind a filtered list of pointers. *)
Lemma mapM_deref_filter st ps (vals : list VolumeBinding) :
  mapM (deref st) ps = Some vals →
  mapM (deref st) (filter (λ p, isSoft st p = true) ps) =
    Some (filter (λ vb, RequireSchedule vb = true) vals) ∧
  mapM (deref st) (filter (λ p, ¬ isSoft st p = true) ps) =
    Some (filter (λ vb, ¬ RequireSchedule vb = true) vals).
Proof.
  intros Hvals%mapM_Some. rewrite !mapM_Some.
  induction Hvals as [|p vb ps vals Hp _ [IH1 IH2]]; [by split |].
  rewrite !filter_cons.
  assert (isSoft st p = RequireSchedule vb) as Hsoft
    by (unfold isSoft; by rewrite Hp).
  destruct (decide (RequireSchedule vb = true)) as [Hs | Hs].
  - rewrite (decide_True (P := isSoft st p = true)) by (by rewrite Hsoft).
    rewrite (decide_False (P := ¬ isSoft st p = true)) by (rewrite Hsoft; tauto).
    rewrite (decide_False (P := ¬ RequireSchedule vb = true)) by tauto.
    split; [by constructor | done].
  - rewrite (decide_False (P := isSoft st p = true)) by (by rewrite Hsoft).
    rewrite (decide_True (P := ¬ isSoft st p = true)) by (by rewrite Hsoft).
    rewrite (decide_True (P := ¬ RequireSchedule vb = true)) by done.
    split; [done | by constructor].
Qed.

Lemma TotalSize_filter (P : VolumeBinding → Prop) `{!∀ x, Decision (P x)}
    (l : list VolumeBinding) :
  TotalSize l =
    wrap64 (TotalSize (filter P l) + TotalSize (filter (λ x, ¬ P x) l)).
Proof.
  rewrite !TotalSize_sum64. unfold sum64.
  by rewrite wrap64_add_l, wrap64_add_r, <- sumZ_split.
Qed.

(** X16. [Divide] is an order-keeping partition that shares the
    bindings: on a slice of non-nil pointers it returns two new
    slices, the first with the pointers to the bindings whose source
    ends in [AUTO] and the second with the other pointers, each in
    the order of the receiver; it writes to no binding and to no cell
    of the receiver, and the two total sizes add up to the total size
    of the receiver. *)
Theorem X16_Divide_partition st vbs ps (vals : list VolumeBinding) :
  elems st vbs = Some ps →
  mapM (deref st) ps = Some vals →
  ∃ st' soft hard,
    Divide st vbs = Some (st', soft, hard) ∧
    objs st' = objs st ∧ cells st `prefix_of` cells st' ∧
    elems st' soft = Some (filter (λ p, isSoft st p = true) ps) ∧
    elems st' hard = Some (filter (λ p, ¬ isSoft st p = true) ps) ∧
    values st' soft = Some (filter (λ vb, RequireSchedule vb = true) vals) ∧
    values st' hard = Some (filter (λ vb, ¬ RequireSchedule vb = true) vals) ∧
    TotalSize vals =
      wrap64 (TotalSize (filter (λ vb, RequireSchedule vb = true) vals) +
              TotalSize (filter (λ vb, ¬ RequireSchedule vb = true) vals)).
Proof.
  intros Hps Hvals.
  set (soft := filter (λ p, isSoft st p = true) ps).
  set (hard := filter (λ p, ¬ isSoft st p = true) ps).
  destruct (mapM_deref_filter st ps vals Hvals) as [Hsv Hhv].
  set (st' := mkStore (objs st) (cells st ++ soft ++ hard)).
  assert (elems st' (mkSlice (length (cells st)) (length soft)) = Some soft)
    as Hes.
  { unfold elems. simpl. rewrite decide_True by (rewrite !length_app; lia).
    by rewrite drop_app_length, take_app_length. }
  assert (elems st' (mkSlice (length (cells st) + length soft) (length hard))
          = Some hard) as Heh.
  { unfold elems. simpl. rewrite decide_True by (rewrite !length_app; lia).
    rewrite (assoc_L (++)), drop_app_length' by (by rewrite length_app).
    by rewrite firstn_all. }
  exists st', (mkSlice (length (cells st)) (length soft)),
         (mkSlice (length (cells st) + length soft) (length hard)).
  split_and!; try done.
  - unfold Divide. rewrite Hps. cbn [mbind option_bind].
    by rewrite (Divide_loop_spec st ps vals [] [] Hvals).
  - by apply prefix_app_r.
  - unfold values. by rewrite Hes.
  - unfold values. by rewrite Heh.
  - apply TotalSize_filter.
Qed.
End Divide_facts.

(** X16 on [stPlan]: the auto binding goes to the first slice, the
    other one to the second, and both slices hold the old pointers. *)
Lemma X16_witness :
  ∃ st' soft hard,
    Divide stPlan (mkSlice 0 2) = Some (st', soft, hard) ∧
    objs st' = objs stPlan ∧ cells stPlan `prefix_of` cells st' ∧
    elems st' soft = Some [0] ∧ elems st' hard = Some [1] ∧
    values st' soft = Some [mkVolumeBinding "AUTO" "/data" "rw" 100 0 0 0 0] ∧
    values st' hard = Some [mkVolumeBinding "/host" "/etc" "ro" 0 0 0 0 0] ∧
    TotalSize (objs stPlan) = wrap64 (100 + 0).
Proof.
  exact (X16_Divide_partition stPlan (mkSlice 0 2) [0; 1] (objs stPlan)
           eq_refl eq_refl).
Defined.

(** ** More on [ApplyPlan] *)

Section ApplyPlan_more.
Context {VolumePlan VolumeMap : Type}.
Variable GetVolumeMap : VolumePlan → VolumeBinding → option VolumeMap.
Variable GetResourceID : VolumeMap → string.
Variable plan : VolumePlan.

(** The bindings of the result slice. *)
Lemma ApplyPlan_values (st : Store) (vbs : Slice) (ps : list nat)
    (vals : list VolumeBinding) :
  elems st vbs = Some ps →
  mapM (deref st) ps = Some vals →
  ∃ st' res,
    ApplyPlan GetVolumeMap GetResourceID plan st vbs = Some (st', res) ∧
    values st' res = Some (planned GetVolumeMap GetResourceID plan <$> vals).
Proof.
  intros Hps Hvals.
  destruct (ApplyPlan_loop_spec GetVolumeMap GetResourceID plan ps st [] vals Hvals)
    as (st1 & Hloop & Ho & Hc).
  pose proof (Forall2_length _ _ _ (proj1 (mapM_Some _ _ _) Hvals)) as Hlv.
  set (res := seq (length (objs st)) (length ps)) in *.
  exists (mkStore (objs st1) (cells st1 ++ res)),
         (mkSlice (length (cells st1)) (length res)).
  split.
  - unfold ApplyPlan. rewrite Hps. cbn [mbind option_bind]. by rewrite Hloop.
  - unfold values, elems. simpl.
    rewrite decide_True by (rewrite length_app; lia).
    rewrite drop_app_length, firstn_all. cbn [mbind option_bind].
    unfold res. rewrite Hlv.
    replace (length vals) with
      (length (planned GetVolumeMap GetResourceID plan <$> vals))
      by apply length_fmap.
    by apply mapM_deref_fresh.
Qed.

Lemma sumZ_planned (vals : list VolumeBinding) :
  sumZ SizeInBytes (planned GetVolumeMap GetResourceID plan <$> vals) =
  sumZ SizeInBytes vals.
Proof.
  induction vals as [|vb vals IH]; [done |].
  rewrite fmap_cons. simpl. rewrite IH. f_equal.
  unfold planned. by destruct (GetVolumeMap plan vb).
Qed.

(** X17. [ApplyPlan] keeps the total size, and with a plan that
    assigns no volume map to any binding of the receiver it returns
    copies of the bindings. *)
Theorem X17_ApplyPlan_keeps_total (st : Store) (vbs : Slice) (ps : list nat)
    (vals : list VolumeBinding) :
  elems st vbs = Some ps →
  mapM (deref st) ps = Some vals →
  ∃ st' res vals',
    ApplyPlan GetVolumeMap GetResourceID plan st vbs = Some (st', res) ∧
    values st' res = Some vals' ∧
    TotalSize vals' = TotalSize vals ∧
    (Forall (λ vb, GetVolumeMap plan vb = None) vals → vals' = vals).
Proof.
  intros Hps Hvals.
  destruct (ApplyPlan_values st vbs ps vals Hps Hvals) as (st' & res & Ha & Hv).
  exists st', res, (planned GetVolumeMap GetResourceID plan <$> vals).
  split_and!; try done.
  - rewrite !TotalSize_sum64. unfold sum64. by rewrite sumZ_planned.
  - intros Hnone. clear Hvals Hv.
    induction Hnone as [|vb vals' Hvb _ IH]; [done |].
    rewrite fmap_cons, IH. f_equal. unfold planned. by rewrite Hvb.
Qed.
End ApplyPlan_more.

(** X17 on [stPlan] with the plan [planDev0]. *)
Lemma X17_witness :
  ∃ st' res vals',
    ApplyPlan planDev0 id () stPlan (mkSlice 0 2) = Some (st', res) ∧
    values st' res = Some vals' ∧
    TotalSize vals' = TotalSize (objs stPlan) ∧
    (Forall (λ vb, planDev0 () vb = None) (objs stPlan) →
     vals' = objs stPlan).
Proof.
  exact (X17_ApplyPlan_keeps_total planDev0 id () stPlan (mkSlice 0 2) [0; 1]
           (objs stPlan) eq_refl eq_refl).
Defined.

(** ** More on [ToStringSlice] and [IsEqual] *)

Section ToStringSlice_more.
Implicit Types (st : Store) (vbs : Slice) (ps : list nat).
Implicit Types (vals : list VolumeBinding).

Lemma values_Some st vbs vals :
  values st vbs = Some vals ↔
  ∃ ps, elems st vbs = Some ps ∧ mapM (deref st) ps = Some vals.
Proof.
  unfold values. destruct (elems st vbs) as [ps |]; simpl.
  - split; [eauto |]. by intros (ps' & [= <-] & H).
  - split; [done |]. by intros (ps' & ? & _).
Qed.

Lemma mapM_deref_target st ps vals :
  mapM (deref st) ps = Some vals →
  vals = target st <$> ps ∧ Forall (λ p, is_Some (deref st p)) ps.
Proof.
  intros Hvals%mapM_Some.
  induction Hvals as [|p vb ps vals Hp _ [IH1 IH2]]; [by split |].
  split; [| constructor; eauto].
  rewrite fmap_cons, <- IH1. unfold target. by rewrite Hp.
Qed.

Lemma mapM_deref_valid st ps :
  Forall (λ p, is_Some (deref st p)) ps →
  mapM (deref st) ps = Some (target st <$> ps).
Proof.
  intros Hall. apply mapM_Some.
  induction Hall as [|p ps [vb Hp] _ IH]; [constructor |].
  rewrite fmap_cons. constructor; [|done]. unfold target. by rewrite Hp.
Qed.

Lemma sortKey_target st p :
  is_Some (deref st p) → sortKey st p = ToString (target st p) false.
Proof. intros [vb Hp]. unfold sortKey, target. by rewrite Hp. Qed.

(** A write to a slice leaves the cells outside of it. *)
Lemma cells_write_outside st vbs ps' (j : nat) :
  off vbs + len vbs ≤ length (cells st) → length ps' = len vbs →
  j < off vbs ∨ off vbs + len vbs ≤ j →
  cells (write st vbs ps') !! j = cells st !! j.
Proof.
  intros Hb Hl Hj. unfold write. simpl.
  assert (length (take (off vbs) (cells st)) = off vbs) as Htake
    by (rewrite length_take; lia).
  destruct Hj as [Hj | Hj].
  - rewrite lookup_app_l by lia. by rewrite lookup_take_lt.
  - rewrite lookup_app_r by lia. rewrite lookup_app_r by lia.
    rewrite lookup_drop. f_equal. lia.
Qed.

Lemma elems_write_disjoint st vbs vbs2 ps' :
  off vbs + len vbs ≤ length (cells st) → length ps' = len vbs →
  disjoint vbs vbs2 →
  elems (write st vbs ps') vbs2 = elems st vbs2.
Proof.
  intros Hb Hl Hd. unfold elems.
  destruct (write_frame st vbs ps' Hb Hl) as (_ & _ & Hlen & _ & _).
  rewrite Hlen. case_decide as Hb2; [|done]. f_equal.
  apply list_eq. intros i.
  destruct (decide (i < len vbs2)) as [Hi | Hi].
  - rewrite !lookup_take_lt, !lookup_drop by done.
    apply cells_write_outside; try done. unfold disjoint in Hd. lia.
  - by rewrite !lookup_take_ge by lia.
Qed.

(** The sorting call, in full. *)
Lemma ToStringSlice_true_spec st vbs (normalize : bool) ps vals :
  elems st vbs = Some ps → mapM (deref st) ps = Some vals →
  ToStringSlice true normalize st vbs =
    Some (write st vbs (sortSlice st ps),
          (λ vb, ToString vb normalize) <$> (target st <$> sortSlice st ps)).
Proof.
  intros Hps Hvals. unfold ToStringSlice.
  rewrite Hps. cbn [mbind option_bind]. rewrite Hvals. cbn [mbind option_bind].
  change (deref (write st vbs (sortSlice st ps))) with (deref st).
  rewrite mapM_deref_valid; [done |].
  rewrite sortSlice_Permutation. by apply (mapM_deref_target st ps vals).
Qed.

(** What the sorting call leaves and returns. *)
Lemma ToStringSlice_true_props st vbs (normalize : bool) vals :
  values st vbs = Some vals →
  ∃ st' vals',
    ToStringSlice true normalize st vbs =
      Some (st', (λ vb, ToString vb normalize) <$> vals') ∧
    values st' vbs = Some vals' ∧ vals' ≡ₚ vals ∧
    Sorted String.le ((λ vb, ToString vb false) <$> vals') ∧
    objs st' = objs st ∧
    (∀ vbs2, disjoint vbs vbs2 → elems st' vbs2 = elems st vbs2).
Proof.
  intros (ps & Hps & Hvals)%values_Some.
  destruct (elems_Some _ _ _ Hps) as (Hb & _ & Hl).
  destruct (mapM_deref_target st ps vals Hvals) as [-> Hvalid].
  pose proof (sortSlice_Permutation st ps) as Hperm.
  assert (length (sortSlice st ps) = len vbs) as Hl' by (by rewrite Hperm).
  destruct (write_frame st vbs (sortSlice st ps) Hb Hl') as (He & Ho & _).
  exists (write st vbs (sortSlice st ps)), (target st <$> sortSlice st ps).
  split_and!.
  - by eapply ToStringSlice_true_spec.
  - apply values_Some. exists (sortSlice st ps). split; [done |].
    change (deref (write st vbs (sortSlice st ps))) with (deref st).
    apply mapM_deref_valid. by rewrite Hperm.
  - by rewrite Hperm.
  - rewrite <- list_fmap_compose.
    assert ((λ vb, ToString vb false) ∘ target st <$> sortSlice st ps =
            sortKey st <$> sortSlice st ps) as ->.
    { apply Forall_fmap_ext. rewrite Hperm.
      eapply Forall_impl; [exact Hvalid |].
      intros p Hp. simpl. by rewrite sortKey_target. }
    apply (Sorted_fmap _ (keyLe st)); [done | apply sortSlice_Sorted].
  - done.
  - intros vbs2 Hd. by apply elems_write_disjoint.
Qed.
End ToStringSlice_more.

(** X18. The order [ToStringSlice] works in: without sorting it
    returns the strings in the order of the slice and changes
    nothing; with sorting it leaves in the slice a permutation of the
    bindings in ascending order of their non-normalized strings and
    returns their strings in that order, so that with [normalize]
    the strings returned need not be ascending themselves (on
    [stNorm] they are not). *)
Theorem X18_ToStringSlice_order :
  (∀ (st : Store) (vbs : Slice) (normalize : bool) (vals : list VolumeBinding),
     values st vbs = Some vals →
     ToStringSlice false normalize st vbs =
       Some (st, (λ vb, ToString vb normalize) <$> vals) ∧
     ∃ st' vals',
       ToStringSlice true normalize st vbs =
         Some (st', (λ vb, ToString vb normalize) <$> vals') ∧
       values st' vbs = Some vals' ∧ vals' ≡ₚ vals ∧
       Sorted String.le ((λ vb, ToString vb false) <$> vals') ∧
       objs st' = objs st) ∧
  (ToStringSlice true true stNorm (mkSlice 0 2) =
     Some (stNorm, ["a:b:l:1"; "a:b::1"]) ∧
   ¬ Sorted String.le ["a:b:l:1"; "a:b::1"]).
Proof.
  split.
  - intros st vbs normalize vals Hvals. split.
    + apply values_Some in Hvals as (ps & Hps & Hvals).
      unfold ToStringSlice. rewrite Hps. cbn [mbind option_bind].
      by rewrite Hvals.
    + destruct (ToStringSlice_true_props st vbs normalize vals Hvals)
        as (st' & vals' & ? & ? & ? & ? & ? & _).
      by exists st', vals'.
  - split; [by vm_compute |].
    intros Hs. apply Sorted_inv in Hs as [_ Hhd].
    apply HdRel_inv in Hhd. by vm_compute in Hhd.
Qed.

(** X18 on [stTwo]: the strings come back in ascending order. *)
Lemma X18_witness :
  ToStringSlice false false stTwo sliceLeft =
    Some (stTwo, ["/b:/data:rw:0"; "/a:/data:rw:0"]) ∧
  ∃ st' vals',
    ToStringSlice true false stTwo sliceLeft =
      Some (st', (λ vb, ToString vb false) <$> vals') ∧
    values st' sliceLeft = Some vals' ∧ vals' ≡ₚ objs stTwo ∧
    Sorted String.le ((λ vb, ToString vb false) <$> vals') ∧
    objs st' = objs stTwo.
Proof.
  exact (proj1 X18_ToStringSlice_order stTwo sliceLeft false (objs stTwo)
           eq_refl).
Defined.

(** X19. [IsEqual] compares the collections as multisets of
    non-normalized strings: on two slices of non-nil pointers that
    share no cell, or on one slice with itself, it answers true
    exactly when the strings of the one are a permutation of the
    strings of the other, and it writes to no binding. Bindings with
    the same string are not told apart: on [stQuota] a binding with
    an IO quota equals one without. *)
Theorem X19_IsEqual_multiset :
  (∀ (st : Store) (vbs vbs2 : Slice) (vals1 vals2 : list VolumeBinding),
     values st vbs = Some vals1 → values st vbs2 = Some vals2 →
     disjoint vbs vbs2 ∨ vbs2 = vbs →
     ∃ st' b,
       IsEqual st vbs vbs2 = Some (st', b) ∧ objs st' = objs st ∧
       (b = true ↔
        (λ vb, ToString vb false) <$> vals1 ≡ₚ
        (λ vb, ToString vb false) <$> vals2)) ∧
  (IsEqual stQuota (mkSlice 0 1) (mkSlice 1 1) = Some (stQuota, true) ∧
   values stQuota (mkSlice 0 1) ≠ values stQuota (mkSlice 1 1)).
Proof.
  split; [| split; by vm_compute].
  intros st vbs vbs2 vals1 vals2 Hv1 Hv2 Hrel.
  destruct (ToStringSlice_true_props st vbs false vals1 Hv1)
    as (st1 & vals1' & Hcall1 & Hv1' & Hp1 & Hs1 & Ho1 & Hframe).
  assert (∃ vals2', values st1 vbs2 = Some vals2' ∧ vals2' ≡ₚ vals2)
    as (vals2' & Hv2' & Hp2').
  { destruct Hrel as [Hd | ->].
    - exists vals2. split; [|done].
      unfold values, deref in *. by rewrite (Hframe _ Hd), Ho1.
    - exists vals1'. split; [done |].
      rewrite Hv1 in Hv2. by simplify_eq. }
  destruct (ToStringSlice_true_props st1 vbs2 false vals2' Hv2')
    as (st2 & vals2'' & Hcall2 & _ & Hp2 & Hs2 & Ho2 & _).
  exists st2, (bool_decide ((λ vb, ToString vb false) <$> vals1' =
                            (λ vb, ToString vb false) <$> vals2'')).
  split_and!.
  - unfold IsEqual. rewrite Hcall1. cbn [mbind option_bind].
    by rewrite Hcall2.
  - by rewrite Ho2.
  - rewrite bool_decide_eq_true. split.
    + intros Heq. rewrite <- Hp1, <- Hp2', <- Hp2. by rewrite Heq.
    + intros Hperm. apply (Sorted_unique String.le); try done.
      by rewrite Hp1, Hp2, Hp2'.
Qed.

(** X19 on [stTwo]: the two slices hold the same two bindings. *)
Lemma X19_witness :
  ∃ st' b,
    IsEqual stTwo sliceLeft sliceRight = Some (st', b) ∧
    objs st' = objs stTwo ∧
    (b = true ↔
     (λ vb, ToString vb false) <$> objs stTwo ≡ₚ
     (λ vb, ToString vb false) <$> objs stTwo).
Proof.
  refine (proj1 X19_IsEqual_multiset stTwo sliceLeft sliceRight
            (objs stTwo) (objs stTwo) eq_refl eq_refl _).
  left. unfold disjoint. simpl. lia.
Defined.
